(** * A dialect-transparent database access layer

    Shallow embedding of the database module of the dashboard server
    (backend selection, placeholder translation, generated-key emulation
    and the transaction context of the client-server backend), and the
    properties its specification states about it.

    JavaScript strings are modelled as lists of code units; the model
    covers the code units U+0000..U+00FF, one [ascii] each. *)

From Stdlib Require Import Ascii String List Bool Arith NArith Lia.
From stdpp Require Import base decidable option list gmap strings.
Import ListNotations.

Local Open Scope list_scope.
Local Open Scope char_scope.

(** ** Strings *)

Abbreviation jsstring := (list ascii).

(** String literals of the source are written [( $"text" )]. *)
Notation "$ s" := (list_ascii_of_string s%string) (at level 1, format "$ s").

Definition LF : ascii := "010".
Definition SQUOTE : ascii := "'".
Definition DQUOTE : ascii := Eval cbv in ascii_of_nat 34.
Definition QMARK : ascii := "?".
Definition DOLLAR : ascii := "$".
Definition DASH : ascii := "-".
Definition SLASH : ascii := "/".
Definition STAR : ascii := "*".
Definition SEMI : ascii := ";".

(** [ch === c] on single code units. *)
Definition ch_is (c ch : ascii) : bool := Ascii.eqb ch c.

(** [next === c], where [next] is [''] past the end of the string. *)
Definition next_is (c : ascii) (next : option ascii) : bool :=
  match next with
  | Some n => Ascii.eqb n c
  | None => false
  end.

(** Decimal rendering of a non-negative integer, as a template literal
    [`${n}`] prints it. *)
Fixpoint uint_chars (d : Decimal.uint) : jsstring :=
  match d with
  | Decimal.Nil => []
  | Decimal.D0 d => "0" :: uint_chars d
  | Decimal.D1 d => "1" :: uint_chars d
  | Decimal.D2 d => "2" :: uint_chars d
  | Decimal.D3 d => "3" :: uint_chars d
  | Decimal.D4 d => "4" :: uint_chars d
  | Decimal.D5 d => "5" :: uint_chars d
  | Decimal.D6 d => "6" :: uint_chars d
  | Decimal.D7 d => "7" :: uint_chars d
  | Decimal.D8 d => "8" :: uint_chars d
  | Decimal.D9 d => "9" :: uint_chars d
  end.

Definition decimal (n : nat) : jsstring := uint_chars (Nat.to_uint n).

(** [s === t] on strings. *)
Definition str_eqb (s t : jsstring) : bool := bool_decide (s = t).

(** White space and line terminators: what [trim] strips and what [\s]
    matches (tab, LF, VT, FF, CR, space, no-break space). *)
Definition is_space (c : ascii) : bool :=
  let n := N_of_ascii c in
  (((9 <=? n) && (n <=? 13)) || (n =? 32) || (n =? 160))%N.

Fixpoint trimStart (s : jsstring) : jsstring :=
  match s with
  | [] => []
  | c :: r => if is_space c then trimStart r else s
  end.

(** The text without the characters at its end that satisfy [P]. *)
Fixpoint drop_trailing (P : ascii -> bool) (s : jsstring) : jsstring :=
  match s with
  | [] => []
  | c :: r => if forallb P s then [] else c :: drop_trailing P r
  end.

Definition trimEnd (s : jsstring) : jsstring := drop_trailing is_space s.

(** [s.trim()] *)
Definition trim (s : jsstring) : jsstring := trimEnd (trimStart s).

(** [c.toLowerCase()] on one code unit: the letters A-Z and the
    capital letters of U+00C0..U+00DE move by 32. *)
Definition lower (c : ascii) : ascii :=
  let n := N_of_ascii c in
  if (((65 <=? n) && (n <=? 90))
      || (((192 <=? n) && (n <=? 222)) && negb (n =? 215)))%N
  then ascii_of_N (n + 32) else c.

(** [s.toLowerCase()] *)
Definition toLowerCase (s : jsstring) : jsstring := map lower s.

(** [c.toUpperCase()] on one code unit, as code units: sharp s becomes
    [SS], the micro sign and y with diaeresis leave U+0000..U+00FF. *)
Definition upper (c : ascii) : list N :=
  let n := N_of_ascii c in
  (if (97 <=? n) && (n <=? 122) then [n - 32]
   else if n =? 181 then [924]
   else if n =? 223 then [83; 83]
   else if ((224 <=? n) && (n <=? 254)) && negb (n =? 247) then [n - 32]
   else if n =? 255 then [376]
   else [n])%N.

(** [s.toUpperCase()], as code units. *)
Definition toUpperCase (s : jsstring) : list N := flat_map upper s.

Definition units (s : jsstring) : list N := map N_of_ascii s.

(** [upper === 'TEXT'] *)
Definition units_eqb (u : list N) (text : jsstring) : bool :=
  bool_decide (u = units text).

(** Canonicalization of a code unit under the [i] flag of a regular
    expression: the upper case when it is one code unit, except that a
    code unit from U+0080 on never maps below it. *)
Definition canonicalize (c : ascii) : N :=
  let n := N_of_ascii c in
  match upper c with
  | [u] => if ((128 <=? n) && (u <? 128))%N then n else u
  | _ => n
  end.

(** A character of the text against a character of the pattern, under [i]. *)
Definition matches_ci (p c : ascii) : bool :=
  (canonicalize c =? canonicalize p)%N.

(** The text starts with the literal pattern [pat], under [i]. *)
Fixpoint starts_with_ci (pat s : jsstring) : bool :=
  match pat, s with
  | [], _ => true
  | p :: pat', c :: s' => matches_ci p c && starts_with_ci pat' s'
  | _ :: _, [] => false
  end.

(** The literal pattern followed by [\s+] matches at the start. *)
Definition word_space_here (pat s : jsstring) : bool :=
  starts_with_ci pat s &&
  match drop (length pat) s with
  | c :: _ => is_space c
  | [] => false
  end.

(** [/^insert\s+/i.test(s)] *)
Definition test_insert (s : jsstring) : bool := word_space_here $"insert" s.

(** [/returning\s+/i.test(s)]: a match at some position. *)
Fixpoint test_returning (s : jsstring) : bool :=
  word_space_here $"returning" s ||
  match s with
  | [] => false
  | _ :: r => test_returning r
  end.

(** The whole text matches [;+\s*]. *)
Fixpoint semis_then_space (s : jsstring) : bool :=
  match s with
  | [] => false
  | c :: r => ch_is SEMI c && (semis_then_space r || forallb is_space r)
  end.

(** [s.replace(/;+\s*$/, '')]: the leftmost match that reaches the end
    of the text is removed. *)
Fixpoint stripSemicolons (s : jsstring) : jsstring :=
  match s with
  | [] => []
  | c :: r => if semis_then_space s then [] else c :: stripSemicolons r
  end.

(** ** Statement translator: [replaceQMarksWithPgParams] *)

(** The variables of the loop, [i] apart: the loop below runs over the
    text from [sql[i]] on. [paramIndex] stays far below the integers that
    a template literal prints with an exponent. *)
Record scanner := mkScanner {
  out : jsstring;
  paramIndex : nat;
  inSingle : bool;
  inDouble : bool;
  inLineComment : bool;
  inBlockComment : bool
}.

Definition emit (cs : jsstring) (st : scanner) : scanner :=
  mkScanner (out st ++ cs) (paramIndex st)
            (inSingle st) (inDouble st) (inLineComment st) (inBlockComment st).

Definition setInSingle (b : bool) (st : scanner) : scanner :=
  mkScanner (out st) (paramIndex st) b (inDouble st) (inLineComment st) (inBlockComment st).

Definition setInDouble (b : bool) (st : scanner) : scanner :=
  mkScanner (out st) (paramIndex st) (inSingle st) b (inLineComment st) (inBlockComment st).

Definition setInLineComment (b : bool) (st : scanner) : scanner :=
  mkScanner (out st) (paramIndex st) (inSingle st) (inDouble st) b (inBlockComment st).

Definition setInBlockComment (b : bool) (st : scanner) : scanner :=
  mkScanner (out st) (paramIndex st) (inSingle st) (inDouble st) (inLineComment st) b.

Definition bumpParamIndex (st : scanner) : scanner :=
  mkScanner (out st) (S (paramIndex st))
            (inSingle st) (inDouble st) (inLineComment st) (inBlockComment st).

(** How far [i] advances in one iteration. *)
Inductive advance := By1 | By2.

(** One iteration of the [while] loop, on [ch = sql[i]] and
    [next = sql[i + 1]]. *)
Definition iteration (st : scanner) (ch : ascii) (next : option ascii)
  : scanner * advance :=
  if inLineComment st then
    let st := emit [ch] st in
    let st := if ch_is LF ch then setInLineComment false st else st in
    (st, By1)
  else if inBlockComment st then
    let st := emit [ch] st in
    if ch_is STAR ch && next_is SLASH next then
      (setInBlockComment false (emit [SLASH] st), By2)
    else (st, By1)
  else if inSingle st then
    let st := emit [ch] st in
    if ch_is SQUOTE ch && next_is SQUOTE next then (emit [SQUOTE] st, By2)
    else ((if ch_is SQUOTE ch then setInSingle false st else st), By1)
  else if inDouble st then
    let st := emit [ch] st in
    if ch_is DQUOTE ch && next_is DQUOTE next then (emit [DQUOTE] st, By2)
    else ((if ch_is DQUOTE ch then setInDouble false st else st), By1)
  else if ch_is DASH ch && next_is DASH next then
    (setInLineComment true (emit [ch; DASH] st), By2)
  else if ch_is SLASH ch && next_is STAR next then
    (setInBlockComment true (emit [ch; STAR] st), By2)
  else if ch_is SQUOTE ch then (setInSingle true (emit [ch] st), By1)
  else if ch_is DQUOTE ch then (setInDouble true (emit [ch] st), By1)
  else if ch_is QMARK ch then
    let st := bumpParamIndex st in
    (emit (DOLLAR :: decimal (paramIndex st)) st, By1)
  else (emit [ch] st, By1).

(** The loop [while (i < sql.length)], on the text that starts at [i]. *)
Fixpoint scan (st : scanner) (sql : jsstring) {struct sql} : scanner :=
  match sql with
  | [] => st
  | ch :: rest =>
      match iteration st ch (head rest) with
      | (st', By1) => scan st' rest
      | (st', By2) =>
          match rest with
          | _ :: rest' => scan st' rest'
          | [] => st'
          end
      end
  end.

Definition initial : scanner := mkScanner [] 0 false false false false.

Definition replaceQMarksWithPgParams (sql : jsstring) : jsstring :=
  out (scan initial sql).

(** The lexical state of the loop, one of five: the four flags are never
    set together (see [scan_flags_exclusive]). *)
Inductive mode := Default | InSingle | InDouble | InLine | InBlock.

Definition of_mode (m : mode) (o : jsstring) (k : nat) : scanner :=
  match m with
  | Default => mkScanner o k false false false false
  | InSingle => mkScanner o k true false false false
  | InDouble => mkScanner o k false true false false
  | InLine => mkScanner o k false false true false
  | InBlock => mkScanner o k false false false true
  end.

(** One iteration, seen on the lexical state: the text appended to
    [out], the next state, the next parameter index and the advance. *)
Definition step (m : mode) (k : nat) (ch : ascii) (next : option ascii)
  : jsstring * mode * nat * advance :=
  match m with
  | InLine => ([ch], (if ch_is LF ch then Default else InLine), k, By1)
  | InBlock =>
      if ch_is STAR ch && next_is SLASH next then ([ch; SLASH], Default, k, By2)
      else ([ch], InBlock, k, By1)
  | InSingle =>
      if ch_is SQUOTE ch && next_is SQUOTE next then ([ch; SQUOTE], InSingle, k, By2)
      else ([ch], (if ch_is SQUOTE ch then Default else InSingle), k, By1)
  | InDouble =>
      if ch_is DQUOTE ch && next_is DQUOTE next then ([ch; DQUOTE], InDouble, k, By2)
      else ([ch], (if ch_is DQUOTE ch then Default else InDouble), k, By1)
  | Default =>
      if ch_is DASH ch && next_is DASH next then ([ch; DASH], InLine, k, By2)
      else if ch_is SLASH ch && next_is STAR next then ([ch; STAR], InBlock, k, By2)
      else if ch_is SQUOTE ch then ([ch], InSingle, k, By1)
      else if ch_is DQUOTE ch then ([ch], InDouble, k, By1)
      else if ch_is QMARK ch then (DOLLAR :: decimal (S k), Default, S k, By1)
      else ([ch], Default, k, By1)
  end.

(** What the loop appends to [out] from lexical state [m] and parameter
    index [k] on the remaining text. *)
Fixpoint scan_from (m : mode) (k : nat) (sql : jsstring) {struct sql} : jsstring :=
  match sql with
  | [] => []
  | ch :: rest =>
      match step m k ch (head rest) with
      | (e, m', k', By1) => e ++ scan_from m' k' rest
      | (e, m', k', By2) =>
          e ++ match rest with
               | _ :: rest' => scan_from m' k' rest'
               | [] => []
               end
      end
  end.

(** A character that neither opens a literal or a comment nor is a marker. *)
Definition plain (c : ascii) : bool :=
  negb (ch_is DASH c || ch_is SLASH c || ch_is SQUOTE c || ch_is DQUOTE c
        || ch_is QMARK c).

(** ** The translator, as the specification words it

    The text is cut into executable SQL, single-quoted literals,
    double-quoted identifiers, line comments and block comments; a marker
    is replaced exactly when it lies in executable SQL. *)

(** Length of a line comment's body, given the text after [--]: it ends
    with the first newline. *)
Fixpoint line_comment_len (s : jsstring) : nat :=
  match s with
  | [] => 0
  | c :: r => if ch_is LF c then 1 else S (line_comment_len r)
  end.

(** Length of a block comment's body, given the text after the opening
    delimiter: it ends with the first [*/]. *)
Fixpoint block_comment_len (s : jsstring) : nat :=
  match s with
  | [] => 0
  | c :: r =>
      if ch_is STAR c && next_is SLASH (head r) then 2
      else S (block_comment_len r)
  end.

(** Length of a quoted body, given the text after the opening quote [q]:
    a doubled [q] continues it, a single [q] ends it. *)
Fixpoint quoted_len (q : ascii) (s : jsstring) {struct s} : nat :=
  match s with
  | [] => 0
  | c :: r =>
      if ch_is q c then
        match r with
        | n :: r' => if ch_is q n then S (S (quoted_len q r')) else 1
        | [] => 1
        end
      else S (quoted_len q r)
  end.

(** For every character of the text, whether it is executable SQL. *)
Fixpoint code_mask_upto (fuel : nat) (s : jsstring) : list bool :=
  match fuel, s with
  | 0, _ | _, [] => []
  | S fuel, c :: r =>
      if ch_is DASH c && next_is DASH (head r) then
        let body := tail r in
        let n := line_comment_len body in
        repeat false (2 + n) ++ code_mask_upto fuel (drop n body)
      else if ch_is SLASH c && next_is STAR (head r) then
        let body := tail r in
        let n := block_comment_len body in
        repeat false (2 + n) ++ code_mask_upto fuel (drop n body)
      else if ch_is SQUOTE c then
        let n := quoted_len SQUOTE r in
        repeat false (1 + n) ++ code_mask_upto fuel (drop n r)
      else if ch_is DQUOTE c then
        let n := quoted_len DQUOTE r in
        repeat false (1 + n) ++ code_mask_upto fuel (drop n r)
      else true :: code_mask_upto fuel r
  end.

Definition code_mask (s : jsstring) : list bool :=
  code_mask_upto (length s) s.

(** Replace the markers in executable position by [$k], [k] counting
    them from [k0 + 1] on, and keep every other character. *)
Fixpoint substitute (k0 : nat) (s : list (ascii * bool)) : jsstring :=
  match s with
  | [] => []
  | (c, executable) :: t =>
      if executable && ch_is QMARK c
      then DOLLAR :: decimal (S k0) ++ substitute (S k0) t
      else c :: substitute k0 t
  end.

Definition translate_spec (sql : jsstring) : jsstring :=
  substitute 0 (combine sql (code_mask sql)).

(** ** Backend selector *)

(** [process.env]: a variable is absent or holds a string. *)
Abbreviation environment := (gmap string jsstring).

(** [v || ''] on a string that may be undefined. *)
Definition or_empty (v : option jsstring) : jsstring := default [] v.

(** Truthiness of a string that may be undefined: the empty string is
    falsy. *)
Definition truthy (v : option jsstring) : bool :=
  match v with
  | Some (_ :: _) => true
  | _ => false
  end.

Inductive dialect := postgres | sqlite.

Definition resolveDialect (env : environment) : dialect :=
  let explicit := toLowerCase (trim (or_empty (env !! "DB_DIALECT"%string))) in
  if str_eqb explicit $"postgres" || str_eqb explicit $"postgresql"
     || str_eqb explicit $"pg" then postgres
  else if str_eqb explicit $"sqlite" || str_eqb explicit $"sqlite3" then sqlite
  else if truthy (env !! "DATABASE_URL"%string) || truthy (env !! "PGHOST"%string)
  then postgres
  else sqlite.


Section Ssl.
(** [new URL(s).searchParams] as the list of its pairs; [None] when the
    constructor throws. *)
Variable URL_searchParams : jsstring -> option (list (jsstring * jsstring)).




End Ssl.

(** ** Insert-key emulator *)

Definition isInsertNeedingReturningId (sql : jsstring) : bool :=
  let s := trim sql in
  if negb (test_insert s) then false
  else if test_returning s then false
  else true.

(** ** Control pseudo-statements *)

Inductive control := Begin | Commit | Rollback.

(** The native command of a control pseudo-statement. *)
Definition command (k : control) : jsstring :=
  match k with
  | Begin => $"BEGIN"
  | Commit => $"COMMIT"
  | Rollback => $"ROLLBACK"
  end.

(** The tests at the head of [exec]: which branch the statement takes. *)
Definition control_of (sql : jsstring) : option control :=
  let trimmed := stripSemicolons (trim sql) in
  let upper := toUpperCase trimmed in
  if units_eqb upper $"BEGIN" || units_eqb upper $"BEGIN TRANSACTION"
  then Some Begin
  else if units_eqb upper $"COMMIT" then Some Commit
  else if units_eqb upper $"ROLLBACK" then Some Rollback
  else None.

(** ** The client-server backend

    One call chain is modelled, its awaited calls one after the other:
    [txStore] is the store of [AsyncLocalStorage] that the chain reads
    with [getStore] in the synchronous head of each call. The module
    calls [enterWith] only in the continuation of a call, after an
    [await]; what the chain sees of it is described at [enterWith]. The
    pool and its clients belong to the driver: what they answer is given
    by [driver], a function of the calls made so far, and the pool's
    bookkeeping of leased clients is kept in [leased]. A call of the
    driver that never settles is not modelled. *)

Section ClientServer.
Context {payload number : Type}.

(** A JavaScript value: [undefined], [null], or anything else. *)
Inductive value := Vundefined | Vnull | Vother (p : payload).

(** [Number(v)] on a value that is neither [null] nor [undefined]. *)
Variable Number : payload -> number.

Definition client := nat.

Inductive error := Error (message : jsstring).

Definition row := gmap string value.

Record result := { rowCount : option N; rows : option (list row) }.

(** Who runs a statement: the pool, or one leased client. *)
Inductive runner := ThePool | TheClient (c : client).

Inductive call :=
| Connect
| Query (r : runner) (text : jsstring) (values : option (list value))
| Release (c : client).

Record driver := {
  connect_reply : list call -> error + client;
  query_reply :
    list call -> runner -> jsstring -> option (list value) -> error + result
}.

Variable drv : driver.

(** The store of the call chain, as [txStore.getStore()] reads it:
    undefined, null, or an object with its client. [StoreOff] is the
    store of a storage that was never entered; [getStore] returns
    undefined for it as well. *)
Inductive store := StoreOff | StoreUndefined | StoreNull | StoreObject (c : client).

Record world := {
  txStore : store;
  leased : gset client;
  journal : list call
}.

Inductive outcome (A : Type) :=
| Returned (a : A)
| Thrown (e : error).
Arguments Returned {A} a.
Arguments Thrown {A} e.

Definition M (A : Type) : Type := world -> outcome A * world.

Definition ret {A} (a : A) : M A := fun w => (Returned a, w).
Definition throw {A} (e : error) : M A := fun w => (Thrown e, w).
Definition bind {A B} (m : M A) (k : A -> M B) : M B :=
  fun w =>
    match m w with
    | (Returned a, w') => k a w'
    | (Thrown e, w') => (Thrown e, w')
    end.

Notation "'do' x <- m ; k" := (bind m (fun x => k))
  (at level 10, x name, m at level 100, k at level 200).
Notation "m ;; k" := (bind m (fun _ => k))
  (at level 100, k at level 200, right associativity).

(** [try { body } catch (e) { handler }] *)
Definition try_catch {A} (body : M A) (handler : error -> M A) : M A :=
  fun w =>
    match body w with
    | (Returned a, w') => (Returned a, w')
    | (Thrown e, w') => handler e w'
    end.

(** [try { body } finally { cleanup }]: what [cleanup] throws replaces
    the outcome of [body]. *)
Definition try_finally {A} (body : M A) (cleanup : M unit) : M A :=
  fun w =>
    match body w with
    | (r, w') =>
        match cleanup w' with
        | (Returned _, w'') => (r, w'')
        | (Thrown e, w'') => (Thrown e, w'')
        end
    end.

Definition logged (c : call) (w : world) : world :=
  {| txStore := txStore w; leased := leased w; journal := journal w ++ [c] |}.

(** The client bound to the call chain, if any: [getStore()?.client]. *)
Definition bound_client (w : world) : option client :=
  match txStore w with
  | StoreObject c => Some c
  | _ => None
  end.

(** [txStore.getStore()?.client] *)
Definition getStore_client : M (option client) :=
  fun w => (Returned (bound_client w), w).

(** [txStore.enterWith(s)]. The module calls it only in the continuation
    of [exec] or of [close], after an [await]. [enterWith] sets the store
    on the current execution resource. Once the storage has been entered,
    the continuation after an [await] runs on a resource of its own,
    which got a copy of the store when it was created: the store set
    here is read by what the continuation goes on to call, and the chain
    that awaits [exec] or [close] keeps the store it had. Before the
    storage is first entered no resource is tracked: the first
    [enterWith] sets the store on the one resource that the awaiting
    chain reads too. *)
Definition enterWith (s : store) : M unit :=
  fun w =>
    match txStore w with
    | StoreOff =>
        (Returned tt, {| txStore := s; leased := leased w; journal := journal w |})
    | _ => (Returned tt, w)
    end.

(** [await pool.connect()] *)
Definition pool_connect : M client :=
  fun w =>
    match connect_reply drv (journal w) with
    | inl e => (Thrown e, logged Connect w)
    | inr c =>
        (Returned c,
         {| txStore := txStore w; leased := {[c]} ∪ leased w;
            journal := journal w ++ [Connect] |})
    end.

(** [await runner.query(text, values)] *)
Definition runner_query (r : runner) (text : jsstring)
           (values : option (list value)) : M result :=
  fun w =>
    match query_reply drv (journal w) r text values with
    | inl e => (Thrown e, logged (Query r text values) w)
    | inr res => (Returned res, logged (Query r text values) w)
    end.

Definition double_release : error :=
  Error $"Release called on client which has already been released to the pool.".

(** [client.release()]: the pool takes the client back, and throws on a
    client it does not count as leased. *)
Definition client_release (c : client) : M unit :=
  fun w =>
    if decide (c ∈ leased w) then
      (Returned tt,
       {| txStore := txStore w; leased := leased w ∖ {[c]};
          journal := journal w ++ [Release c] |})
    else (Thrown double_release, logged (Release c) w).

(** [txStore.getStore()?.client || pool] *)
Definition runner_of (w : world) : runner :=
  match bound_client w with
  | Some c => TheClient c
  | None => ThePool
  end.

Definition query (text : jsstring) (values : option (list value)) : M result :=
  do bound <- getStore_client;
  let runner := match bound with Some c => TheClient c | None => ThePool end in
  runner_query runner text values.

Definition exec_begin : M unit :=
  do bound <- getStore_client;
  match bound with
  | Some _ => throw (Error $"Transaction already started")
  | None =>
      do client <- pool_connect;
      try_catch (runner_query (TheClient client) $"BEGIN" None ;; ret tt)
                (fun e =>
                   try_catch (client_release client) (fun _ => ret tt) ;;
                   throw e) ;;
      enterWith (StoreObject client)
  end.

(** The branches of [COMMIT] and of [ROLLBACK], which differ by the
    command sent. *)
Definition exec_end (command : jsstring) : M unit :=
  do bound <- getStore_client;
  match bound with
  | None => ret tt
  | Some client =>
      try_finally (runner_query (TheClient client) command None ;; ret tt)
                  (client_release client ;; enterWith StoreNull)
  end.

Definition exec (sql : jsstring) : M unit :=
  let trimmed := stripSemicolons (trim sql) in
  let upper := toUpperCase trimmed in
  if units_eqb upper $"BEGIN" || units_eqb upper $"BEGIN TRANSACTION"
  then exec_begin
  else if units_eqb upper $"COMMIT" then exec_end $"COMMIT"
  else if units_eqb upper $"ROLLBACK" then exec_end $"ROLLBACK"
  else query sql None ;; ret tt.

Record run_result := { changes : N; lastID : option number }.

(** [r.rows?.[0]?.id] *)
Definition first_row_id (r : result) : value :=
  match rows r with
  | Some (first :: _) => default Vundefined (first !! "id"%string)
  | _ => Vundefined
  end.

Definition run (sql : jsstring) (params : option (list value)) : M run_result :=
  let text := replaceQMarksWithPgParams sql in
  let values := default [] params in
  let returning := isInsertNeedingReturningId text in
  let text := if returning then text ++ $" RETURNING id" else text in
  do r <- query text (Some values);
  ret {| changes := default 0%N (rowCount r);
         lastID := if returning then
                     match first_row_id r with
                     | Vother id => Some (Number id)
                     | _ => None
                     end
                   else None |}.
End ClientServer.

Arguments Returned {A} a.
Arguments Thrown {A} e.

(** ** The control pseudo-statements, as the specification words them *)

(** Equality of two texts up to letter case. *)
Definition eq_ci (s t : jsstring) : bool :=
  str_eqb (toLowerCase s) (toLowerCase t).

(** The text without the semicolons at its end. *)
Definition strip_trailing_semicolons (s : jsstring) : jsstring :=
  drop_trailing (ch_is SEMI) s.

Definition keywords : list (jsstring * control) :=
  [($"BEGIN", Begin); ($"BEGIN TRANSACTION", Begin);
   ($"COMMIT", Commit); ($"ROLLBACK", Rollback)].

(** The control operation whose keyword equals, up to letter case, the
    trimmed text stripped of its trailing semicolons. *)
Definition control_spec_of_text (text : jsstring) : option control :=
  snd <$> find (fun entry => eq_ci text (fst entry)) keywords.

Definition control_spec (sql : jsstring) : option control :=
  control_spec_of_text (strip_trailing_semicolons (trim sql)).

(** All code units of the model. *)
Definition all_chars : list ascii := map ascii_of_nat (seq 0 256).

(** A character of a keyword: a capital letter or a space. *)
Definition kwchar (K : ascii) : bool :=
  let n := N_of_ascii K in (((65 <=? n) && (n <=? 90)) || (n =? 32))%N.

Definition lowercase_letter (c : ascii) : bool :=
  let n := N_of_ascii c in ((97 <=? n) && (n <=? 122))%N.

(** No two adjacent [S]. *)
Fixpoint no_double_s (KW : jsstring) : bool :=
  match KW with
  | a :: r => match r with
              | b :: _ => negb (ch_is "S" a && ch_is "S" b)
              | [] => true
              end && no_double_s r
  | [] => true
  end.

(** ** The insert-key test, as the specification words it *)

(** A character of an identifier or of a keyword: a letter, a digit or
    an underscore. *)
Definition is_word (c : ascii) : bool :=
  let n := N_of_ascii c in
  (((65 <=? n) && (n <=? 90)) || ((97 <=? n) && (n <=? 122))
   || ((48 <=? n) && (n <=? 57)) || (n =? 95))%N.

(** The keyword [kw] stands at the start of the text as a token: no
    identifier character follows it. *)
Definition token_here (kw s : jsstring) : bool :=
  starts_with_ci kw s &&
  match drop (length kw) s with
  | c :: _ => negb (is_word c)
  | [] => true
  end.

(** The keyword [kw] occurs in the text as a token; [boundary] tells
    whether a token may start at the head of the text. *)
Fixpoint has_token (kw : jsstring) (boundary : bool) (s : jsstring) : bool :=
  (boundary && token_here kw s) ||
  match s with
  | [] => false
  | c :: r => has_token kw (negb (is_word c)) r
  end.

(** An INSERT statement without a RETURNING token. *)
Definition needs_returning_spec (sql : jsstring) : bool :=
  token_here $"insert" (trim sql) && negb (has_token $"returning" true sql).

(** What the two regular expressions of the code accept: [insert] in any
    letter case followed by a white-space character at the start, and
    [returning] in any letter case followed by a white-space character
    anywhere. *)
Definition word_then_space_at_start (word s : jsstring) : Prop :=
  exists kw w rest,
    s = kw ++ w :: rest /\ toLowerCase kw = word /\ is_space w = true.

Definition word_then_space_somewhere (word s : jsstring) : Prop :=
  exists before after, s = before ++ after /\ word_then_space_at_start word after.

(** ** The backend selector, as the specification words it *)

Definition client_server_aliases : list jsstring :=
  [$"postgres"; $"postgresql"; $"pg"].

Definition embedded_aliases : list jsstring := [$"sqlite"; $"sqlite3"].

(** The explicit dialect override, trimmed and in lower case; the empty
    text when the variable is absent. *)
Definition dialect_override (env : environment) : jsstring :=
  toLowerCase (trim (or_empty (env !! "DB_DIALECT"%string))).

(** A variable is present: it is set, to a text that is not empty. *)
Definition present (env : environment) (name : string) : Prop :=
  exists v, env !! name = Some v /\ v <> [].




(** ** Further notions *)

(** The text has no marker at all. *)
Definition no_marker (s : jsstring) : bool :=
  forallb (fun c => negb (ch_is QMARK c)) s.

(** No marker of the text lies in executable SQL. *)
Definition no_executable_marker (s : jsstring) : bool :=
  forallb (fun x => negb (snd x && ch_is QMARK (fst x))) (combine s (code_mask s)).

(** ** The file of the embedded backend: [getSqliteFile] *)

(** [v || d] on a string that may be undefined. *)
Definition or_else (v : option jsstring) (d : jsstring) : jsstring :=
  if truthy v then or_empty v else d.

Section SqliteFile.
(** [fs.existsSync('/data')], [__dirname] and [path.join]. *)
Variable existsSync_data : bool.
Variable dirname : jsstring.
Variable path_join : jsstring -> jsstring -> jsstring.

Definition getSqliteFile (env : environment) : jsstring :=
  let preferredDir :=
    or_else (env !! "DB_DIR"%string)
            (if existsSync_data then $"/data" else dirname) in
  path_join preferredDir (or_else (env !! "DB_FILE"%string) $"data.sqlite").
End SqliteFile.

(** ** The other operations of the facade *)

Section Facade.
Context {payload number : Type}.
Variable Number : payload -> number.
Variable drv : @driver payload.

(** What [await pool.end()] answers, given the calls made so far: an
    error, or nothing. It is the last call of the facade and is not
    entered in the journal. *)
Variable end_reply : list (@call payload) -> option error.

Notation "'do' x <- m ; k" := (bind m (fun x => k))
  (at level 10, x name, m at level 100, k at level 200).
Notation "m ;; k" := (bind m (fun _ => k))
  (at level 100, k at level 200, right associativity).

(** [r.rows?.[0]] *)
Definition first_row (r : @result payload) : option row :=
  match rows r with
  | Some (first :: _) => Some first
  | _ => None
  end.

Definition get (sql : jsstring) (params : option (list value)) : M (option row) :=
  let text := replaceQMarksWithPgParams sql in
  let values := default [] params in
  do r <- query drv text (Some values);
  ret (first_row r).

Definition all (sql : jsstring) (params : option (list value)) : M (list row) :=
  let text := replaceQMarksWithPgParams sql in
  let values := default [] params in
  do r <- query drv text (Some values);
  ret (default [] (rows r)).

(** [await pool.end()] *)
Definition pool_end : M unit :=
  fun w =>
    match end_reply (journal w) with
    | Some e => (Thrown e, w)
    | None => (Returned tt, w)
    end.

Definition close : M unit :=
  do bound <- getStore_client;
  match bound with
  | Some client =>
      try_catch (runner_query drv (TheClient client) $"ROLLBACK" None ;; ret tt)
                (fun _ => ret tt) ;;
      try_catch (client_release client) (fun _ => ret tt) ;;
      enterWith StoreNull
  | None => ret tt
  end ;;
  pool_end.

(** A call of one of the four statement operations. *)
Inductive operation :=
| Exec (sql : jsstring)
| Run (sql : jsstring) (params : option (list (@value payload)))
| Get (sql : jsstring) (params : option (list (@value payload)))
| All (sql : jsstring) (params : option (list (@value payload))).

(** The state after an operation, whether it returned or threw. *)
Definition perform (o : operation) (w : world) : world :=
  match o with
  | Exec sql => snd (exec drv sql w)
  | Run sql params => snd (run Number drv sql params w)
  | Get sql params => snd (get sql params w)
  | All sql params => snd (all sql params w)
  end.

(** The state after a sequence of awaited operations. *)
Definition perform_all (os : list operation) (w : world) : world :=
  fold_left (fun w o => perform o w) os w.

(** An operation that is not a control pseudo-statement. *)
Definition ordinary (o : operation) : Prop :=
  match o with
  | Exec sql => control_of sql = None
  | _ => True
  end.

(** The call is a statement sent to the pool. *)
Definition on_pool (x : @call payload) : Prop :=
  exists text values, x = Query ThePool text values.

(** The call is a statement sent to client [c]. *)
Definition on_client (c : client) (x : @call payload) : Prop :=
  exists text values, x = Query (TheClient c) text values.
End Facade.

(** ** Sample drivers and states *)

(** A driver whose pool hands out client 7 and whose every statement
    fails. *)
Definition failing_driver : @driver unit :=
  {| connect_reply := fun _ => inr 7;
     query_reply := fun _ _ _ _ => inl (Error $"connection lost") |}.

(** A driver whose first statement fails and whose later ones return no
    rows; its pool hands out client 7. *)
Definition recovering_driver : @driver unit :=
  {| connect_reply := fun _ => inr 7;
     query_reply := fun journal _ _ _ =>
       if bool_decide (length journal <= 1)
       then inl (Error $"connection lost")
       else inr {| rowCount := Some 0%N; rows := Some [] |} |}.

(** A call chain with no store, in a process whose storage was entered
    before. *)
Definition idle_world : @world unit :=
  {| txStore := StoreUndefined; leased := ∅; journal := [] |}.

(** The first call chain of a process: the storage was never entered. *)
Definition first_world : @world unit :=
  {| txStore := StoreOff; leased := ∅; journal := [] |}.

(** A driver whose pool hands out client 7 and whose statements return
    no rows. *)
Definition answering_driver : @driver unit :=
  {| connect_reply := fun _ => inr 7;
     query_reply := fun _ _ _ _ => inr {| rowCount := Some 0%N; rows := Some [] |} |}.

(** Client 1 is leased and bound to the call chain. *)
Definition open_world : @world unit :=
  {| txStore := StoreObject 1; leased := {[1]}; journal := [] |}.

(** An environment that names the client-server engine, one that only
    has a connection string, and one that asks for SSL in its connection
    string. *)
Definition env_override : environment :=
  {[ "DB_DIALECT"%string := $" PostgreSQL " ]}.

Definition env_url : environment :=
  {[ "DATABASE_URL"%string := $"postgres://db.example/app?sslmode=verify-full" ]}.


(** A driver whose statements return one row with [id] 42; payloads are
    numbers and [Number] leaves them as they are. *)
Definition inserting_driver : @driver nat :=
  {| connect_reply := fun _ => inr 7;
     query_reply := fun _ _ _ _ =>
       inr {| rowCount := Some 1%N;
              rows := Some [ {[ "id"%string := Vother 42 ]} ] |} |}.

(** A call chain with no store, in a process whose storage was entered
    before, and the first call chain of a process. *)
Definition fresh_world : @world nat :=
  {| txStore := StoreUndefined; leased := ∅; journal := [] |}.

Definition pristine_world : @world nat :=
  {| txStore := StoreOff; leased := ∅; journal := [] |}.

(** A driver whose pool has no client to give. *)
Definition exhausted_driver : @driver unit :=
  {| connect_reply := fun _ => inl (Error $"timeout exceeded when trying to connect");
     query_reply := fun _ _ _ _ => inr {| rowCount := Some 0%N; rows := Some [] |} |}.

(** [pool.end()] that settles without an error. *)
Definition quiet_end {payload : Type} (_ : list (@call payload)) : option error := None.

(** * Properties *)

(** ** The statement translator *)

Section ListPairs.
Context {A : Type} (P : list A -> Prop).
Hypothesis P_nil : P [].
Hypothesis P_one : forall a, P [a].
Hypothesis P_two : forall a b l, P l -> P (b :: l) -> P (a :: b :: l).

Lemma list_pair_ind (l : list A) : P l.
Proof using P_nil P_one P_two.
  enough (H : P l /\ forall a, P (a :: l)) by apply H.
  induction l as [|b l [IH1 IH2]]; split; auto.
Qed.
End ListPairs.

Lemma ch_is_true c ch : ch_is c ch = true -> ch = c.
Proof. unfold ch_is. apply Ascii.eqb_eq. Qed.

Ltac split_tests :=
  repeat (first
    [ progress rewrite ?andb_false_r, ?andb_true_r
    | match goal with
      | |- context [if ch_is ?c ?x then _ else _] => destruct (ch_is c x) eqn:?
      | |- context [ch_is ?c ?x && _] => destruct (ch_is c x) eqn:?
      | |- context [if next_is ?c ?x then _ else _] => destruct (next_is c x) eqn:?
      end ]; simpl).

Lemma iteration_of_mode m o k ch next :
  iteration (of_mode m o k) ch next =
  let '(e, m', k', adv) := step m k ch next in (of_mode m' (o ++ e) k', adv).
Proof.
  destruct m; unfold iteration; simpl; split_tests;
    unfold emit, setInSingle, setInDouble, setInLineComment,
      setInBlockComment, bumpParamIndex; simpl;
    rewrite <- ?app_assoc; reflexivity.
Qed.

Lemma scan_cons st ch rest :
  scan st (ch :: rest) =
  match iteration st ch (head rest) with
  | (st', By1) => scan st' rest
  | (st', By2) => match rest with _ :: rest' => scan st' rest' | [] => st' end
  end.
Proof. reflexivity. Qed.

Lemma scan_from_cons m k ch rest :
  scan_from m k (ch :: rest) =
  match step m k ch (head rest) with
  | (e, m', k', By1) => e ++ scan_from m' k' rest
  | (e, m', k', By2) =>
      e ++ match rest with _ :: rest' => scan_from m' k' rest' | [] => [] end
  end.
Proof. reflexivity. Qed.

Lemma scan_of_mode (s : jsstring) :
  forall m o k, out (scan (of_mode m o k) s) = o ++ scan_from m k s.
Proof.
  induction s as [|a|a b l IHl IHbl] using list_pair_ind; intros m o k.
  - destruct m; simpl; now rewrite app_nil_r.
  - rewrite scan_cons, scan_from_cons, iteration_of_mode.
    destruct (step m k a (head [])) as [[[e m'] k'] []];
      destruct m'; simpl; now rewrite ?app_nil_r.
  - rewrite scan_cons, scan_from_cons, iteration_of_mode.
    destruct (step m k a (head (b :: l))) as [[[e m'] k'] []].
    + rewrite IHbl. now rewrite app_assoc.
    + rewrite IHl. now rewrite app_assoc.
Qed.

(** The four flags are mutually exclusive all along the loop. *)
Lemma scan_flags_exclusive (s : jsstring) :
  forall m o k, exists m' o' k', scan (of_mode m o k) s = of_mode m' o' k'.
Proof.
  induction s as [|a|a b l IHl IHbl] using list_pair_ind; intros m o k.
  - now exists m, o, k.
  - rewrite scan_cons, iteration_of_mode.
    destruct (step m k a (head [])) as [[[e m'] k'] []]; now eexists _, _, _.
  - rewrite scan_cons, iteration_of_mode.
    destruct (step m k a (head (b :: l))) as [[[e m'] k'] []]; [apply IHbl|apply IHl].
Qed.

Lemma translate_scan_from sql :
  replaceQMarksWithPgParams sql = scan_from Default 0 sql.
Proof. exact (scan_of_mode sql Default [] 0). Qed.

(** *** Segments of the scan *)

Lemma line_comment_len_le s : line_comment_len s <= length s.
Proof. induction s as [|c r IH]; simpl; [lia|]. destruct (ch_is LF c); simpl; lia. Qed.

Lemma block_comment_len_le s : block_comment_len s <= length s.
Proof.
  induction s as [|c r IH]; simpl; [lia|].
  destruct (ch_is STAR c); simpl; [|lia].
  destruct r as [|n r']; simpl in *; [lia|].
  destruct (Ascii.eqb n SLASH); simpl; lia.
Qed.

Lemma quoted_len_le q s : quoted_len q s <= length s.
Proof.
  induction s as [|a|a b l IHl IHbl] using list_pair_ind; simpl.
  - lia.
  - destruct (ch_is q a); lia.
  - simpl in IHbl. destruct (ch_is q a); [destruct (ch_is q b)|]; lia.
Qed.

Lemma scan_line_comment s k :
  scan_from InLine k s =
  take (line_comment_len s) s ++ scan_from Default k (drop (line_comment_len s) s).
Proof.
  induction s as [|c r IH]; [reflexivity|].
  rewrite scan_from_cons. simpl.
  destruct (ch_is LF c); simpl; [now rewrite drop_0|].
  now rewrite IH.
Qed.

Lemma scan_block_comment s k :
  scan_from InBlock k s =
  take (block_comment_len s) s ++ scan_from Default k (drop (block_comment_len s) s).
Proof.
  induction s as [|a|a b l IHl IHbl] using list_pair_ind.
  - reflexivity.
  - simpl. now destruct (ch_is STAR a).
  - rewrite scan_from_cons. cbn [step head next_is block_comment_len].
    fold (ch_is SLASH b).
    destruct (ch_is STAR a && ch_is SLASH b) eqn:E.
    + apply andb_true_iff in E as [_ E]. apply ch_is_true in E. subst b.
      simpl. now rewrite drop_0.
    + rewrite IHbl. reflexivity.
Qed.

Lemma scan_quoted_single s k :
  scan_from InSingle k s =
  take (quoted_len SQUOTE s) s ++ scan_from Default k (drop (quoted_len SQUOTE s) s).
Proof.
  induction s as [|a|a b l IHl IHbl] using list_pair_ind.
  - reflexivity.
  - simpl. now destruct (ch_is SQUOTE a).
  - rewrite scan_from_cons. cbn [step head next_is quoted_len].
    fold (ch_is SQUOTE b).
    destruct (ch_is SQUOTE a) eqn:Ea; [destruct (ch_is SQUOTE b) eqn:Eb|]; simpl andb; cbv iota.
    + apply ch_is_true in Eb. subst b. rewrite IHl. reflexivity.
    + reflexivity.
    + rewrite IHbl. reflexivity.
Qed.

Lemma scan_quoted_double s k :
  scan_from InDouble k s =
  take (quoted_len DQUOTE s) s ++ scan_from Default k (drop (quoted_len DQUOTE s) s).
Proof.
  induction s as [|a|a b l IHl IHbl] using list_pair_ind.
  - reflexivity.
  - simpl. now destruct (ch_is DQUOTE a).
  - rewrite scan_from_cons. cbn [step head next_is quoted_len].
    fold (ch_is DQUOTE b).
    destruct (ch_is DQUOTE a) eqn:Ea; [destruct (ch_is DQUOTE b) eqn:Eb|]; simpl andb; cbv iota.
    + apply ch_is_true in Eb. subst b. rewrite IHl. reflexivity.
    + reflexivity.
    + rewrite IHbl. reflexivity.
Qed.

Lemma substitute_skip n : forall s M k,
  n <= length s ->
  substitute k (combine s (repeat false n ++ M)) =
  take n s ++ substitute k (combine (drop n s) M).
Proof.
  induction n as [|n IH]; intros s M k Hn.
  - now rewrite drop_0.
  - destruct s as [|c s]; simpl in *; [lia|].
    rewrite IH by lia. reflexivity.
Qed.

Lemma next_is_head c (r : jsstring) :
  next_is c (head r) = true -> exists r', r = c :: r'.
Proof.
  destruct r as [|n r']; simpl; [discriminate|].
  intros H. apply Ascii.eqb_eq in H. subst n. now exists r'.
Qed.

Lemma scan_default_mask fuel : forall s k,
  length s <= fuel ->
  scan_from Default k s = substitute k (combine s (code_mask_upto fuel s)).
Proof.
  induction fuel as [|fuel IH]; intros s k Hlen.
  - destruct s; simpl in *; [reflexivity|lia].
  - destruct s as [|c r]; [reflexivity|].
    rewrite scan_from_cons. cbn [code_mask_upto step]. simpl in Hlen.
    destruct (ch_is DASH c && next_is DASH (head r)) eqn:E1.
    { apply andb_true_iff in E1 as [Ec En]. apply ch_is_true in Ec.
      apply next_is_head in En as [r' ->]. subst c. cbn [tail].
      pose proof (line_comment_len_le r') as Hn. simpl in Hlen.
      rewrite (substitute_skip (2 + line_comment_len r')) by (simpl; lia).
      rewrite scan_line_comment, IH by (rewrite length_drop; lia).
      reflexivity. }
    destruct (ch_is SLASH c && next_is STAR (head r)) eqn:E2.
    { apply andb_true_iff in E2 as [Ec En]. apply ch_is_true in Ec.
      apply next_is_head in En as [r' ->]. subst c. cbn [tail].
      pose proof (block_comment_len_le r') as Hn. simpl in Hlen.
      rewrite (substitute_skip (2 + block_comment_len r')) by (simpl; lia).
      rewrite scan_block_comment, IH by (rewrite length_drop; lia).
      reflexivity. }
    destruct (ch_is SQUOTE c) eqn:E3.
    { pose proof (quoted_len_le SQUOTE r) as Hn.
      rewrite (substitute_skip (1 + quoted_len SQUOTE r)) by (simpl; lia).
      rewrite scan_quoted_single, IH by (rewrite length_drop; lia).
      reflexivity. }
    destruct (ch_is DQUOTE c) eqn:E4.
    { pose proof (quoted_len_le DQUOTE r) as Hn.
      rewrite (substitute_skip (1 + quoted_len DQUOTE r)) by (simpl; lia).
      rewrite scan_quoted_double, IH by (rewrite length_drop; lia).
      reflexivity. }
    cbn [combine substitute andb].
    destruct (ch_is QMARK c) eqn:E5; rewrite IH by lia; reflexivity.
Qed.

Lemma code_mask_upto_length fuel : forall s,
  length s <= fuel -> length (code_mask_upto fuel s) = length s.
Proof.
  induction fuel as [|fuel IH]; intros s Hlen.
  - destruct s; simpl in *; [reflexivity|lia].
  - destruct s as [|c r]; [reflexivity|].
    cbn [code_mask_upto]. simpl in Hlen.
    destruct (ch_is DASH c && next_is DASH (head r)) eqn:E1.
    { apply andb_true_iff in E1 as [_ En].
      apply next_is_head in En as [r' ->]. cbn [tail]. simpl in Hlen.
      pose proof (line_comment_len_le r').
      rewrite length_app, repeat_length, IH by (rewrite length_drop; lia).
      rewrite length_drop. simpl. lia. }
    destruct (ch_is SLASH c && next_is STAR (head r)) eqn:E2.
    { apply andb_true_iff in E2 as [_ En].
      apply next_is_head in En as [r' ->]. cbn [tail]. simpl in Hlen.
      pose proof (block_comment_len_le r').
      rewrite length_app, repeat_length, IH by (rewrite length_drop; lia).
      rewrite length_drop. simpl. lia. }
    destruct (ch_is SQUOTE c).
    { pose proof (quoted_len_le SQUOTE r).
      rewrite length_app, repeat_length, IH by (rewrite length_drop; lia).
      rewrite length_drop. simpl. lia. }
    destruct (ch_is DQUOTE c).
    { pose proof (quoted_len_le DQUOTE r).
      rewrite length_app, repeat_length, IH by (rewrite length_drop; lia).
      rewrite length_drop. simpl. lia. }
    simpl. rewrite IH by lia. reflexivity.
Qed.

(** Every character of the text is classified. *)
Lemma code_mask_length s : length (code_mask s) = length s.
Proof. apply code_mask_upto_length. lia. Qed.

(** C1. The translator replaces each marker [?] that lies in executable
    SQL (outside single-quoted literals, double-quoted identifiers, line
    comments and block comments, a doubled quote continuing its literal)
    by [$k], where [k] numbers these markers from 1 in left-to-right
    order; every other character, markers inside literals and comments
    included, is copied unchanged and leaves the index as it is. *)
Theorem translator_replaces_executable_markers (sql : jsstring) :
  replaceQMarksWithPgParams sql = translate_spec sql.
Proof.
  rewrite translate_scan_from. unfold translate_spec, code_mask.
  apply scan_default_mask. lia.
Qed.

Example translate_spec_example :
  replaceQMarksWithPgParams $"SELECT * FROM t WHERE a = ? AND b = '?' -- ?"
  = $"SELECT * FROM t WHERE a = $1 AND b = '?' -- ?".
Proof. reflexivity. Qed.

Example translate_doubled_quote :
  replaceQMarksWithPgParams $"INSERT INTO t(s) VALUES ('it''s a ?')"
  = $"INSERT INTO t(s) VALUES ('it''s a ?')".
Proof. reflexivity. Qed.

Example translate_counts_executable_markers :
  replaceQMarksWithPgParams $"UPDATE t SET a = ?, b = '?''?' /* ? */ WHERE c = ? -- ?"
  = $"UPDATE t SET a = $1, b = '?''?' /* ? */ WHERE c = $2 -- ?".
Proof. reflexivity. Qed.

Example code_mask_example :
  code_mask $"a=? --?" = [true; true; true; true; false; false; false].
Proof. reflexivity. Qed.

(** *** Scanning the translator's own output *)

Lemma uint_chars_plain d : forallb plain (uint_chars d) = true.
Proof. induction d; simpl; auto. Qed.

Lemma decimal_plain n : forallb plain (decimal n) = true.
Proof. apply uint_chars_plain. Qed.

Lemma scan_plain_prefix e : forall T j,
  forallb plain e = true ->
  scan_from Default j (e ++ T) = e ++ scan_from Default j T.
Proof.
  induction e as [|c e IH]; intros T j He; [reflexivity|].
  simpl in He. apply andb_true_iff in He as [Hc He].
  unfold plain in Hc. apply negb_true_iff in Hc.
  repeat (apply orb_false_iff in Hc as [Hc ?]).
  simpl app. rewrite scan_from_cons. unfold step.
  repeat match goal with H : ch_is _ c = false |- _ => rewrite H; clear H end.
  simpl. now rewrite IH.
Qed.

Ltac tests_true :=
  repeat match goal with
    | H : _ && _ = true |- _ => apply andb_true_iff in H as [? ?]
    | H : ch_is _ _ = true |- _ => apply ch_is_true in H
    end.

(** An iteration appends at least one character: the current one, or
    [$] for a marker. *)
Lemma step_emits m k ch nx e m' k' adv :
  step m k ch nx = (e, m', k', adv) ->
  exists x e', e = x :: e' /\ (x = ch \/ (ch = QMARK /\ x = DOLLAR)).
Proof.
  intros H. destruct m; unfold step in H; repeat case_match;
    simplify_eq; tests_true; subst; eauto 7.
Qed.

(** The first character the scan produces is the first character of the
    text, or [$] for a marker. *)
Lemma head_scan_from m k s c :
  c <> QMARK -> c <> DOLLAR ->
  next_is c (head (scan_from m k s)) = next_is c (head s).
Proof.
  intros Hq Hd. destruct s as [|ch rest]; [reflexivity|].
  rewrite scan_from_cons.
  destruct (step m k ch (head rest)) as [[[e m'] k'] adv] eqn:E.
  apply step_emits in E as (x & e' & -> & Hx).
  assert (Hhd : next_is c (Some x) = next_is c (Some ch)).
  { destruct Hx as [->|[-> ->]]; [reflexivity|].
    cbn [next_is].
    destruct (Ascii.eqb_spec DOLLAR c), (Ascii.eqb_spec QMARK c); congruence. }
  destruct adv; exact Hhd.
Qed.

(** Scanning what one iteration appended, followed by what the rest of
    the scan produced: the lexical state moves as it did on the input. *)
Lemma step_rescan m k ch nx e m' k' adv T j :
  step m k ch nx = (e, m', k', adv) ->
  (adv = By1 -> forall c, c <> QMARK -> c <> DOLLAR ->
                next_is c (head T) = next_is c nx) ->
  scan_from m j (e ++ T) = e ++ scan_from m' j T.
Proof.
  intros H Hnx.
  assert (Hall : adv = By1 ->
            next_is DASH (head T) = next_is DASH nx /\
            next_is STAR (head T) = next_is STAR nx /\
            next_is SLASH (head T) = next_is SLASH nx /\
            next_is SQUOTE (head T) = next_is SQUOTE nx /\
            next_is DQUOTE (head T) = next_is DQUOTE nx).
  { intros Hadv. repeat split; apply (Hnx Hadv); discriminate. }
  clear Hnx.
  destruct m; unfold step in H; repeat case_match; simplify_eq;
    try (destruct (Hall eq_refl) as (Hd & Hs & Hsl & Hq & Hdq)); clear Hall.
  all: try (apply scan_plain_prefix; simpl; now rewrite decimal_plain).
  all: simpl app; rewrite scan_from_cons; unfold step; cbn [head].
  all: rewrite ?Hd, ?Hs, ?Hsl, ?Hq, ?Hdq.
  all: repeat match goal with H : _ = true |- _ => rewrite H; clear H
                         | H : _ = false |- _ => rewrite H; clear H end.
  all: try reflexivity.
  all: tests_true; subst; try reflexivity.
Qed.

Lemma rescan (s : jsstring) :
  forall m k j, scan_from m j (scan_from m k s) = scan_from m k s.
Proof.
  induction s as [|a|a b l IHl IHbl] using list_pair_ind; intros m k j.
  - reflexivity.
  - rewrite scan_from_cons.
    destruct (step m k a (head [])) as [[[e m'] k'] adv] eqn:E.
    assert (Hr : scan_from m j (e ++ []) = e ++ scan_from m' j []).
    { apply (step_rescan _ _ _ _ _ _ _ _ _ _ E). reflexivity. }
    simpl in Hr. destruct adv; simpl; rewrite ?app_nil_r in *; exact Hr.
  - rewrite scan_from_cons.
    destruct (step m k a (head (b :: l))) as [[[e m'] k'] adv] eqn:E.
    destruct adv.
    + rewrite (step_rescan _ _ _ _ _ _ _ _ _ _ E), IHbl; [reflexivity|].
      intros _ c Hq Hd. now apply head_scan_from.
    + rewrite (step_rescan _ _ _ _ _ _ _ _ _ _ E), IHl; [reflexivity|].
      discriminate.
Qed.

(** C10. Translating a translated statement changes nothing. *)
Theorem translator_idempotent (sql : jsstring) :
  replaceQMarksWithPgParams (replaceQMarksWithPgParams sql)
  = replaceQMarksWithPgParams sql.
Proof.
  rewrite (translate_scan_from sql). rewrite translate_scan_from.
  apply rescan.
Qed.

(** ** Letter case *)

Lemma all_chars_complete c : In c all_chars.
Proof.
  unfold all_chars. apply in_map_iff. exists (nat_of_ascii c). split.
  - apply ascii_nat_embedding.
  - apply in_seq. pose proof (nat_ascii_bounded c). lia.
Qed.

Lemma for_all_chars (P : ascii -> bool) :
  forallb P all_chars = true -> forall c, P c = true.
Proof. intros H c. eapply forallb_forall in H; [exact H|apply all_chars_complete]. Qed.

Lemma upper_of_keyword_char c K :
  kwchar K = true -> (upper c = [N_of_ascii K] <-> lower c = lower K).
Proof.
  intros HK.
  assert (H : implb (kwchar K)
                (Bool.eqb (bool_decide (upper c = [N_of_ascii K]))
                          (bool_decide (lower c = lower K))) = true).
  { revert K HK. intros K _. revert K. apply for_all_chars.
    revert c. apply for_all_chars. vm_compute. reflexivity. }
  rewrite HK in H. simpl in H. apply Bool.eqb_prop in H.
  rewrite <- (bool_decide_eq_true (upper c = _)), H.
  apply bool_decide_eq_true.
Qed.

Lemma upper_shape c :
  (exists u, upper c = [u]) \/ upper c = [83; 83]%N.
Proof.
  assert (H : (bool_decide (length (upper c) = 1)
               || bool_decide (upper c = [83; 83]%N)) = true).
  { revert c. apply for_all_chars. vm_compute. reflexivity. }
  apply orb_true_iff in H as [H|H]; apply bool_decide_eq_true in H.
  - left. destruct (upper c) as [|u [|? ?]]; try discriminate. now exists u.
  - now right.
Qed.

(** On a keyword, comparing the upper-cased text is comparing up to
    letter case. *)
Lemma upper_eq_keyword s : forall KW,
  forallb kwchar KW = true -> no_double_s KW = true ->
  (toUpperCase s = units KW <-> toLowerCase s = toLowerCase KW).
Proof.
  induction s as [|c s IH]; intros KW Hkw Hss.
  - destruct KW; simpl; split; intros; (reflexivity || discriminate).
  - destruct KW as [|K KW].
    { simpl. split; [|discriminate]. intros H.
      destruct (upper_shape c) as [[u Hu]| Hu]; rewrite Hu in H; discriminate. }
    simpl in Hkw. apply andb_true_iff in Hkw as [HK Hkw].
    assert (Hss' : no_double_s KW = true).
    { simpl in Hss. now apply andb_true_iff in Hss as [_ Hss]. }
    specialize (IH KW Hkw Hss').
    pose proof (upper_of_keyword_char c K HK) as Hc.
    cbn [toUpperCase flat_map units toLowerCase map].
    fold (toUpperCase s) (units KW) (toLowerCase s) (toLowerCase KW).
    destruct (upper_shape c) as [[u Hu]| Hu]; rewrite Hu in *.
    + simpl. split.
      * intros [= -> Hrest]. f_equal; [now apply Hc|now apply IH].
      * intros [= Hl Hrest]. f_equal; [|now apply IH].
        apply Hc in Hl. congruence.
    + split.
      * simpl. intros [= HK1 Hrest].
        destruct KW as [|K2 KW]; [discriminate|].
        simpl in Hrest. injection Hrest as HK2 _.
        exfalso. simpl in Hss. apply andb_true_iff in Hss as [Hss _].
        apply negb_true_iff, andb_false_iff in Hss.
        assert (E1 : K = "S") by (apply (f_equal ascii_of_N) in HK1;
                                  rewrite ascii_N_embedding in HK1; now subst).
        assert (E2 : K2 = "S") by (apply (f_equal ascii_of_N) in HK2;
                                   rewrite ascii_N_embedding in HK2; now subst).
        subst. destruct Hss; discriminate.
      * intros [= Hl _]. apply Hc in Hl. discriminate.
Qed.

Lemma units_eqb_keyword s KW :
  forallb kwchar KW = true -> no_double_s KW = true ->
  units_eqb (toUpperCase s) KW = eq_ci s KW.
Proof.
  intros Hkw Hss. unfold units_eqb, eq_ci, str_eqb.
  apply bool_decide_ext. now apply upper_eq_keyword.
Qed.

(** ** Trimming *)

Section DropTrailing.
Variable P : ascii -> bool.

Lemma drop_trailing_all s : forallb P s = true -> drop_trailing P s = [].
Proof. destruct s as [|c r]; [reflexivity|]. simpl. now intros ->. Qed.

Lemma drop_trailing_keeps s :
  forallb P s = false -> forallb P (drop_trailing P s) = false.
Proof.
  induction s as [|c r IH]; [discriminate|].
  intros H. cbn [drop_trailing]. rewrite H. simpl in *.
  destruct (P c); [now apply IH|reflexivity].
Qed.

Lemma drop_trailing_idempotent s :
  drop_trailing P (drop_trailing P s) = drop_trailing P s.
Proof.
  induction s as [|c r IH]; [reflexivity|].
  cbn [drop_trailing]. destruct (forallb P (c :: r)) eqn:E; [reflexivity|].
  cbn [drop_trailing]. rewrite IH.
  assert (E' : forallb P (c :: drop_trailing P r) = false).
  { simpl in *. destruct (P c); [|reflexivity]. now apply drop_trailing_keeps. }
  now rewrite E'.
Qed.

Lemma drop_trailing_app s t :
  forallb P t = true -> drop_trailing P (s ++ t) = drop_trailing P s.
Proof.
  intros Ht. induction s as [|c r IH]; [now apply drop_trailing_all|].
  simpl. rewrite IH, forallb_app, Ht, andb_true_r. reflexivity.
Qed.

Lemma drop_trailing_last s d :
  P d = false -> drop_trailing P (s ++ [d]) = s ++ [d].
Proof.
  intros Hd. induction s as [|c r IH]; simpl.
  - now rewrite Hd.
  - rewrite IH, forallb_app. simpl. rewrite Hd, andb_false_r, andb_false_r.
    reflexivity.
Qed.
End DropTrailing.

Lemma trimStart_app_space lead s :
  forallb is_space lead = true -> trimStart (lead ++ s) = trimStart s.
Proof.
  induction lead as [|c r IH]; [reflexivity|]. simpl.
  intros H. apply andb_true_iff in H as [-> H]. now apply IH.
Qed.

Lemma trimEnd_trim s : trimEnd (trim s) = trim s.
Proof. apply drop_trailing_idempotent. Qed.

(** On a text without trailing white space, the regular expression
    removes the trailing semicolons and nothing else. *)
Lemma semis_or_space_trimmed s :
  trimEnd s = s ->
  semis_then_space s || forallb is_space s = forallb (ch_is SEMI) s.
Proof.
  unfold trimEnd. induction s as [|c r IH]; [reflexivity|].
  cbn [drop_trailing]. destruct (forallb is_space (c :: r)) eqn:E; [discriminate|].
  intros [= Hr]. rewrite orb_false_r.
  cbn [semis_then_space forallb]. now rewrite IH.
Qed.

Lemma stripSemicolons_trimmed s :
  trimEnd s = s -> stripSemicolons s = strip_trailing_semicolons s.
Proof.
  unfold strip_trailing_semicolons.
  induction s as [|c r IH]; [reflexivity|].
  intros H. pose proof (semis_or_space_trimmed _ H) as Hs.
  revert H. unfold trimEnd. cbn [drop_trailing].
  destruct (forallb is_space (c :: r)) eqn:E; [discriminate|].
  intros [= Hr]. rewrite orb_false_r in Hs.
  cbn [stripSemicolons]. rewrite Hs.
  destruct (forallb (ch_is SEMI) (c :: r)); [reflexivity|]. now rewrite IH.
Qed.

(** The tests of [exec] decide what the specification words. *)
Lemma control_of_spec sql : control_of sql = control_spec sql.
Proof.
  unfold control_of, control_spec.
  rewrite (stripSemicolons_trimmed _ (trimEnd_trim sql)).
  rewrite !units_eqb_keyword by reflexivity.
  unfold control_spec_of_text, keywords. cbn [find fst].
  repeat match goal with
         | |- context [eq_ci ?t ?kw] => destruct (eq_ci t kw)
         end; reflexivity.
Qed.

Example control_spec_examples :
  control_spec $"commit;" = Some Commit /\
  control_spec $"  BEGIN  " = Some Begin /\
  control_spec $"Begin Transaction;;" = Some Begin /\
  control_spec $"ROLLBACK; " = Some Rollback /\
  control_spec $"ROLLBACK ;" = None /\
  control_spec $"COMMIT WORK" = None.
Proof. repeat split; reflexivity. Qed.

(** ** Keywords between white space and semicolons *)

Lemma letter_is_plain c :
  lowercase_letter (lower c) = true -> is_space c = false /\ ch_is SEMI c = false.
Proof.
  intros H.
  assert (E : implb (lowercase_letter (lower c))
                (negb (is_space c) && negb (ch_is SEMI c)) = true).
  { revert c H. intros c _. revert c. apply for_all_chars. vm_compute. reflexivity. }
  rewrite H in E. simpl in E. apply andb_true_iff in E as [E1 E2].
  split; now apply negb_true_iff.
Qed.

Lemma keyword_shape KW k :
  In (KW, k) keywords ->
  exists a M z, toLowerCase KW = a :: M ++ [z] /\
                lowercase_letter a = true /\ lowercase_letter z = true.
Proof.
  intros [E|[E|[E|[E|[]]]]]; injection E as <- <-.
  - now exists "b", $"egi", "n".
  - now exists "b", $"egin transactio", "n".
  - now exists "c", $"ommi", "t".
  - now exists "r", $"ollbac", "k".
Qed.

Lemma keyword_found KW k text :
  In (KW, k) keywords -> eq_ci text KW = true -> control_spec_of_text text = Some k.
Proof.
  unfold control_spec_of_text, eq_ci, str_eqb.
  intros Hin H. apply bool_decide_eq_true in H.
  unfold keywords, eq_ci, str_eqb. cbn [find fst]. rewrite H.
  destruct Hin as [E|[E|[E|[E|[]]]]]; injection E as <- <-; reflexivity.
Qed.

Lemma trim_padded lead a M z n trail :
  forallb is_space lead = true -> forallb is_space trail = true ->
  is_space a = false -> is_space z = false ->
  trim (lead ++ (a :: M ++ [z]) ++ repeat SEMI n ++ trail)
  = (a :: M ++ [z]) ++ repeat SEMI n.
Proof.
  intros Hl Ht Ha Hz. unfold trim.
  rewrite trimStart_app_space by exact Hl.
  cbn [app trimStart]. rewrite Ha.
  change (a :: (M ++ [z]) ++ repeat SEMI n ++ trail)
    with ((a :: M ++ [z]) ++ repeat SEMI n ++ trail).
  rewrite app_assoc. unfold trimEnd.
  rewrite drop_trailing_app by exact Ht.
  destruct n as [|n].
  - simpl repeat. rewrite !app_nil_r.
    change (a :: M ++ [z]) with ((a :: M) ++ [z]).
    now apply drop_trailing_last.
  - cbn [repeat]. rewrite repeat_cons, app_assoc.
    rewrite drop_trailing_last by reflexivity.
    cbn [app]. now rewrite <- !app_assoc.
Qed.

Lemma control_of_padded_keyword KW k kw lead n trail :
  In (KW, k) keywords -> eq_ci kw KW = true ->
  forallb is_space lead = true -> forallb is_space trail = true ->
  control_of (lead ++ kw ++ repeat SEMI n ++ trail) = Some k.
Proof.
  intros Hin Hci Hl Ht. rewrite control_of_spec. unfold control_spec.
  destruct (keyword_shape KW k Hin) as (a' & M' & z' & HKW & Ha' & Hz').
  assert (Hlow : toLowerCase kw = a' :: M' ++ [z']).
  { unfold eq_ci, str_eqb in Hci. apply bool_decide_eq_true in Hci. congruence. }
  unfold toLowerCase in Hlow.
  apply map_eq_cons in Hlow as (a & r & -> & Ha & Hr).
  apply map_eq_app in Hr as (M & zs & -> & HM & Hz).
  destruct zs as [|z [|? ?]]; try discriminate. injection Hz as Hz.
  subst a' z'.
  destruct (letter_is_plain a Ha') as [Hsa _].
  destruct (letter_is_plain z Hz') as [Hsz Hqz].
  rewrite trim_padded by assumption.
  unfold strip_trailing_semicolons.
  rewrite drop_trailing_app
    by (apply forallb_forall; intros x Hx; apply repeat_spec in Hx; now subst).
  change (a :: M ++ [z]) with ((a :: M) ++ [z]).
  rewrite drop_trailing_last by exact Hqz.
  now apply (keyword_found KW).
Qed.

(** ** The regular expressions of the insert-key test *)

Lemma matches_ci_lower p c :
  lowercase_letter p = true -> (matches_ci p c = true <-> lower c = p).
Proof.
  intros Hp.
  assert (H : implb (lowercase_letter p)
                (Bool.eqb (matches_ci p c) (bool_decide (lower c = p))) = true).
  { revert p Hp. intros p _. revert p. apply for_all_chars.
    revert c. apply for_all_chars. vm_compute. reflexivity. }
  rewrite Hp in H. simpl in H. apply Bool.eqb_prop in H. rewrite H.
  apply bool_decide_eq_true.
Qed.

Lemma starts_with_ci_spec pat : forall s,
  forallb lowercase_letter pat = true ->
  (starts_with_ci pat s = true <->
   exists kw rest, s = kw ++ rest /\ toLowerCase kw = pat).
Proof.
  induction pat as [|p pat IH]; intros s Hpat.
  - split; [|reflexivity]. intros _. now exists [], s.
  - simpl in Hpat. apply andb_true_iff in Hpat as [Hp Hpat].
    destruct s as [|c s]; simpl.
    + split; [discriminate|]. intros (kw & rest & E & Hl).
      destruct kw; discriminate.
    + rewrite andb_true_iff, (matches_ci_lower p c Hp), (IH s Hpat). split.
      * intros [Hc (kw & rest & -> & Hl)]. exists (c :: kw), rest.
        simpl. split; [reflexivity|]. now rewrite Hc, Hl.
      * intros (kw & rest & E & Hl). destruct kw as [|k kw]; [discriminate|].
        simpl in E, Hl. injection E as -> ->. injection Hl as Hk Hl.
        split; [exact Hk|]. now exists kw, rest.
Qed.

Lemma word_space_here_spec pat s :
  forallb lowercase_letter pat = true ->
  (word_space_here pat s = true <-> word_then_space_at_start pat s).
Proof.
  intros Hpat. unfold word_space_here, word_then_space_at_start.
  rewrite andb_true_iff, (starts_with_ci_spec pat s Hpat). split.
  - intros [(kw & rest & -> & Hl) Hd].
    assert (Hlen : length pat = length kw).
    { rewrite <- Hl. unfold toLowerCase. now rewrite length_map. }
    rewrite Hlen, drop_app_length in Hd.
    destruct rest as [|w rest]; [discriminate|]. now exists kw, w, rest.
  - intros (kw & w & rest & -> & Hl & Hw).
    assert (Hlen : length pat = length kw).
    { rewrite <- Hl. unfold toLowerCase. now rewrite length_map. }
    split; [now exists kw, (w :: rest)|].
    now rewrite Hlen, drop_app_length.
Qed.

Lemma test_insert_spec s :
  test_insert s = true <-> word_then_space_at_start $"insert" s.
Proof. now apply word_space_here_spec. Qed.

Lemma test_returning_spec s :
  test_returning s = true <-> word_then_space_somewhere $"returning" s.
Proof.
  unfold word_then_space_somewhere. induction s as [|c s IH].
  - cbn [test_returning]. rewrite orb_false_r, word_space_here_spec by reflexivity.
    split.
    + intros H. now exists [], [].
    + intros (before & after & E & H).
      symmetry in E. apply app_eq_nil in E as [_ ->]. exact H.
  - cbn [test_returning]. rewrite orb_true_iff, IH,
      word_space_here_spec by reflexivity. split.
    + intros [H|(before & after & -> & H)].
      * now exists [], (c :: s).
      * now exists (c :: before), after.
    + intros (before & after & E & H). destruct before as [|b before].
      * left. simpl in E. now subst after.
      * right. simpl in E. injection E as -> ->. now exists before, after.
Qed.

Lemma isInsertNeedingReturningId_spec text :
  isInsertNeedingReturningId text = true <->
  word_then_space_at_start $"insert" (trim text) /\
  ~ word_then_space_somewhere $"returning" (trim text).
Proof.
  unfold isInsertNeedingReturningId.
  rewrite <- test_insert_spec, <- test_returning_spec.
  destruct (test_insert (trim text)), (test_returning (trim text)); simpl;
    split; try discriminate; intuition congruence.
Qed.

Example isInsertNeedingReturningId_examples :
  isInsertNeedingReturningId $"INSERT INTO consultants (name) VALUES ($1)" = true /\
  isInsertNeedingReturningId $"  insert into t(a) values ($1) returning id" = false /\
  isInsertNeedingReturningId $"UPDATE t SET a = $1" = false /\
  isInsertNeedingReturningId $"INSERT INTO t(a) VALUES ($1) RETURNING*" = true.
Proof. repeat split; reflexivity. Qed.

Example needs_returning_spec_examples :
  needs_returning_spec $"INSERT INTO consultants (name) VALUES ($1)" = true /\
  needs_returning_spec $"  insert into t(a) values ($1) returning id" = false /\
  needs_returning_spec $"UPDATE t SET a = $1" = false /\
  needs_returning_spec $"INSERT INTO t(a) VALUES ($1) RETURNING*" = false.
Proof. repeat split; reflexivity. Qed.

(** ** Backend selection *)

Lemma str_eqb_true s t : str_eqb s t = true <-> s = t.
Proof. apply bool_decide_eq_true. Qed.

Lemma truthy_present env name : truthy (env !! name) = true <-> present env name.
Proof.
  unfold present. destruct (env !! name) as [[|c v]|]; simpl; split;
    try discriminate; try (intros (v' & [= <-] & H); congruence);
    try (intros (v' & [=] & _)).
  intros _. now exists (c :: v).
Qed.

Lemma in_aliases_eqb (x : jsstring) (l : list jsstring) :
  existsb (str_eqb x) l = true <-> In x l.
Proof.
  rewrite existsb_exists. split.
  - intros (y & Hy & E). apply str_eqb_true in E. now subst.
  - intros H. exists x. split; [exact H|now apply str_eqb_true].
Qed.

Lemma resolveDialect_unfold env :
  resolveDialect env =
  if existsb (str_eqb (dialect_override env)) client_server_aliases then postgres
  else if existsb (str_eqb (dialect_override env)) embedded_aliases then sqlite
  else if truthy (env !! "DATABASE_URL"%string) || truthy (env !! "PGHOST"%string)
  then postgres else sqlite.
Proof.
  unfold resolveDialect, dialect_override. simpl. now rewrite !orb_false_r, !orb_assoc.
Qed.

(** C8. The backend is chosen by priority: a dialect override that,
    trimmed and in lower case, is an alias of the client-server engine
    or of the embedded engine decides; otherwise the client-server
    engine is chosen when the connection-string variable or the host
    variable is present (set to a non-empty text), and the embedded
    engine when neither is. *)
Theorem backend_selection_priority (env : environment) :
  (In (dialect_override env) client_server_aliases ->
   resolveDialect env = postgres) /\
  (In (dialect_override env) embedded_aliases ->
   resolveDialect env = sqlite) /\
  (~ In (dialect_override env) client_server_aliases ->
   ~ In (dialect_override env) embedded_aliases ->
   present env "DATABASE_URL" \/ present env "PGHOST" ->
   resolveDialect env = postgres) /\
  (~ In (dialect_override env) client_server_aliases ->
   ~ In (dialect_override env) embedded_aliases ->
   ~ (present env "DATABASE_URL" \/ present env "PGHOST") ->
   resolveDialect env = sqlite).
Proof.
  rewrite resolveDialect_unfold, <- !in_aliases_eqb, <- !truthy_present.
  destruct (existsb _ client_server_aliases) eqn:Ecs.
  - repeat split; try reflexivity; try congruence.
    intros H. exfalso. revert Ecs H. generalize (dialect_override env).
    intros o H1 H2. apply in_aliases_eqb in H1, H2.
    destruct H1 as [<-|[<-|[<-|[]]]]; destruct H2 as [E|[E|[]]]; discriminate.
  - destruct (existsb _ embedded_aliases) eqn:Eemb.
    + repeat split; try reflexivity; congruence.
    + destruct (truthy (env !! "DATABASE_URL"%string)),
               (truthy (env !! "PGHOST"%string)); simpl;
        repeat split; try reflexivity; try congruence; intuition congruence.
Qed.

(** ** SSL policy *)

Section SslPolicy.
Variable URL_searchParams : jsstring -> option (list (jsstring * jsstring)).




End SslPolicy.

(** ** The transaction context *)

Section Transactions.
Context {payload : Type} (drv : @driver payload).

Implicit Types (w : @world payload) (c : client) (k : control).

(** [exec] runs the branch that [control_of] names. *)
Lemma exec_dispatch sql :
  exec drv sql =
  match control_of sql with
  | Some Begin => exec_begin drv
  | Some k => exec_end drv (command k)
  | None => bind (query drv sql None) (fun _ => ret tt)
  end.
Proof.
  unfold exec, control_of.
  repeat (match goal with |- context [if ?b then _ else _] => destruct b end;
          simpl; try reflexivity).
Qed.

Lemma exec_end_idle cmd w :
  bound_client w = None -> exec_end drv cmd w = (Returned tt, w).
Proof.
  intros Hb. unfold exec_end, bind, getStore_client, ret. now rewrite Hb.
Qed.

Lemma exec_end_bound cmd w c :
  txStore w = StoreObject c -> c ∈ leased w ->
  exec_end drv cmd w =
  (match query_reply drv (journal w) (TheClient c) cmd None with
   | inl e => Thrown e
   | inr _ => Returned tt
   end,
   {| txStore := StoreObject c; leased := leased w ∖ {[c]};
      journal := journal w ++ [Query (TheClient c) cmd None; Release c] |}).
Proof.
  intros Hs Hc.
  unfold exec_end, bind, getStore_client, bound_client, try_finally,
    runner_query, client_release, enterWith, ret, logged.
  rewrite Hs. simpl.
  destruct (query_reply drv (journal w) (TheClient c) cmd None); simpl;
    (destruct (decide (c ∈ leased w)); [|contradiction]); simpl;
    rewrite !Hs; simpl; now rewrite <- app_assoc.
Qed.

(** The client in the store is one the pool has back already: the
    command is sent to it all the same, and its second release throws. *)
Lemma exec_end_released cmd w c :
  txStore w = StoreObject c -> c ∉ leased w ->
  exec_end drv cmd w =
  (Thrown double_release,
   {| txStore := StoreObject c; leased := leased w;
      journal := journal w ++ [Query (TheClient c) cmd None; Release c] |}).
Proof.
  intros Hs Hc.
  unfold exec_end, bind, getStore_client, bound_client, try_finally,
    runner_query, client_release, enterWith, throw, ret, logged.
  rewrite Hs. simpl.
  destruct (query_reply drv (journal w) (TheClient c) cmd None); simpl;
    (destruct (decide (c ∈ leased w)); [contradiction|]); simpl;
    rewrite !Hs; simpl; now rewrite <- app_assoc.
Qed.

(** C2. [COMMIT] or [ROLLBACK] with a leased client bound to the call
    chain: whatever the native command answers, the client goes back to
    the pool, and when the native command throws, its error is what
    [exec] throws; but the binding is not cleared: [enterWith(null)]
    runs after the [await], so the call chain still holds the released
    client when [exec] has returned. *)
Theorem commit_rollback_release_leaves_chain_bound sql k w c :
  control_of sql = Some k -> k <> Begin ->
  txStore w = StoreObject c -> c ∈ leased w ->
  let '(r, w') := exec drv sql w in
  (c ∉ leased w') /\
  leased w' = leased w ∖ {[c]} /\
  In (Release c) (journal w') /\
  match query_reply drv (journal w) (TheClient c) (command k) None with
  | inl e => r = Thrown e
  | inr _ => r = Returned tt
  end /\
  bound_client w' = Some c.
Proof.
  intros Hk Hne Hs Hc. rewrite exec_dispatch, Hk.
  assert (E : exec_end drv (command k) w = _) by exact (exec_end_bound _ _ _ Hs Hc).
  destruct k; [congruence| |]; rewrite E; clear E.
  all: split;
    [simpl; apply not_elem_of_difference; right; now apply elem_of_singleton|].
  all: split; [reflexivity|]; split; [apply in_or_app; right; simpl; tauto|].
  all: split; [now destruct (query_reply _ _ _ _ _)|].
  all: reflexivity.
Qed.

(** C5. [BEGIN] while a client is bound to the call chain throws
    "Transaction already started": nothing is taken from the pool, no
    command is issued, and the binding and the lease stay as they were. *)
Theorem begin_while_open_is_rejected sql w c :
  control_of sql = Some Begin ->
  txStore w = StoreObject c ->
  exec drv sql w = (Thrown (Error $"Transaction already started"), w).
Proof.
  intros Hk Hs. rewrite exec_dispatch, Hk.
  unfold exec_begin, bind, getStore_client, bound_client. now rewrite Hs.
Qed.

(** [COMMIT] or [ROLLBACK] when the store of the call chain holds no
    client returns without throwing; no command is issued, and the
    store and the pool are as before. *)
Theorem commit_rollback_idle_is_noop sql k w :
  control_of sql = Some k -> k <> Begin ->
  bound_client w = None ->
  exec drv sql w = (Returned tt, w).
Proof.
  intros Hk Hne Hb. rewrite exec_dispatch, Hk.
  destruct k; [congruence| |]; now apply exec_end_idle.
Qed.

(** C7. [COMMIT] or [ROLLBACK] when the transaction of the call chain
    has been closed already, so that none is open and the client is
    back in the pool, is not a no-op: the store still holds the released
    client, the redundant command is sent to it, and the second release
    makes [exec] throw. *)
Theorem redundant_commit_rollback_throws sql1 k1 sql2 k2 w c :
  control_of sql1 = Some k1 -> k1 <> Begin ->
  control_of sql2 = Some k2 -> k2 <> Begin ->
  txStore w = StoreObject c -> c ∈ leased w ->
  let w1 := snd (exec drv sql1 w) in
  (c ∉ leased w1) /\
  leased w1 = leased w ∖ {[c]} /\
  exec drv sql2 w1 =
    (Thrown double_release,
     {| txStore := StoreObject c; leased := leased w ∖ {[c]};
        journal := journal w ++
          [Query (TheClient c) (command k1) None; Release c;
           Query (TheClient c) (command k2) None; Release c] |}) /\
  exec drv sql2 w1 <> (Returned tt, w1).
Proof.
  intros Hk1 Hne1 Hk2 Hne2 Hs Hc w1.
  assert (E1 : w1 = {| txStore := StoreObject c; leased := leased w ∖ {[c]};
                       journal := journal w ++
                         [Query (TheClient c) (command k1) None; Release c] |}).
  { subst w1. rewrite exec_dispatch, Hk1.
    assert (E : exec_end drv (command k1) w = _)
      by exact (exec_end_bound _ _ _ Hs Hc).
    destruct k1; [congruence| |]; now rewrite E. }
  assert (Hout : c ∉ leased w1).
  { rewrite E1. simpl. apply not_elem_of_difference. right.
    now apply elem_of_singleton. }
  assert (E2 : exec drv sql2 w1 =
    (Thrown double_release,
     {| txStore := StoreObject c; leased := leased w ∖ {[c]};
        journal := journal w ++
          [Query (TheClient c) (command k1) None; Release c;
           Query (TheClient c) (command k2) None; Release c] |})).
  { rewrite exec_dispatch, Hk2.
    assert (Hs1 : txStore w1 = StoreObject c) by now rewrite E1.
    assert (E : exec_end drv (command k2) w1 = _)
      by exact (exec_end_released (command k2) w1 c Hs1 Hout).
    destruct k2; [congruence| |]; rewrite E, E1; simpl;
      now rewrite <- app_assoc. }
  split; [exact Hout|]. split; [now rewrite E1|]. split; [exact E2|].
  rewrite E2. discriminate.
Qed.

Lemma lease_returned (L : gset client) c :
  c ∉ L -> ({[c]} ∪ L) ∖ {[c]} = L.
Proof.
  intros Hc. apply set_eq. intros x.
  rewrite elem_of_difference, elem_of_union, elem_of_singleton.
  split.
  - intros [[->|Hx] Hn]; [now contradict Hn|exact Hx].
  - intros Hx. split; [now right|]. intros ->. contradiction.
Qed.

(** The store that the call chain reads after a [BEGIN] that went
    through on client [c]. *)
Lemma exec_begin_idle w c :
  bound_client w = None -> connect_reply drv (journal w) = inr c ->
  exec_begin drv w =
  match query_reply drv (journal w ++ [Connect]) (TheClient c) $"BEGIN" None with
  | inl e =>
      (Thrown e,
       {| txStore := txStore w; leased := ({[c]} ∪ leased w) ∖ {[c]};
          journal := journal w ++
            [Connect; Query (TheClient c) $"BEGIN" None; Release c] |})
  | inr _ =>
      (Returned tt,
       {| txStore := match txStore w with
                     | StoreOff => StoreObject c
                     | s => s
                     end;
          leased := {[c]} ∪ leased w;
          journal := journal w ++ [Connect; Query (TheClient c) $"BEGIN" None] |})
  end.
Proof.
  intros Hb Hc.
  unfold exec_begin, bind, getStore_client, pool_connect, try_catch,
    runner_query, client_release, enterWith, throw, ret, logged.
  rewrite Hb, Hc. simpl.
  destruct (query_reply drv _ _ _ _); simpl.
  - destruct (decide (c ∈ {[c]} ∪ leased w)) as [_|Hn]; simpl.
    + now rewrite <- !app_assoc.
    + exfalso. apply Hn, elem_of_union_l. now apply elem_of_singleton.
  - destruct (txStore w); simpl; now rewrite <- !app_assoc.
Qed.

(** C6. When [BEGIN] has taken a client from the pool and the native
    [BEGIN] fails on it, the client is back in the pool when the error
    reaches the caller and the call chain is still unbound; a later
    [BEGIN] of the call chain that the pool and the client answer goes
    through and leases its client; the call chain reads that client in
    its store when the storage had not been entered before, and stays
    unbound otherwise. *)
Theorem failed_begin_releases_the_lease sql w c e :
  control_of sql = Some Begin -> bound_client w = None ->
  connect_reply drv (journal w) = inr c -> c ∉ leased w ->
  query_reply drv (journal w ++ [Connect]) (TheClient c) $"BEGIN" None = inl e ->
  let w' := {| txStore := txStore w; leased := leased w;
               journal := journal w ++
                 [Connect; Query (TheClient c) $"BEGIN" None; Release c] |} in
  exec drv sql w = (Thrown e, w') /\
  bound_client w' = None /\
  forall sql2 c2 res,
    control_of sql2 = Some Begin ->
    connect_reply drv (journal w') = inr c2 ->
    query_reply drv (journal w' ++ [Connect]) (TheClient c2) $"BEGIN" None
      = inr res ->
    exists w'', exec drv sql2 w' = (Returned tt, w'') /\
                (txStore w = StoreOff -> bound_client w'' = Some c2) /\
                (txStore w <> StoreOff -> bound_client w'' = None) /\
                c2 ∈ leased w''.
Proof.
  intros Hk Hb Hc Hfresh Hq w'. split; [|split].
  - rewrite exec_dispatch, Hk, (exec_begin_idle w c Hb Hc), Hq.
    subst w'. do 2 f_equal.
    now rewrite (lease_returned _ _ Hfresh).
  - exact Hb.
  - intros sql2 c2 res Hk2 Hc2 Hq2.
    rewrite exec_dispatch, Hk2, (exec_begin_idle w' c2 Hb Hc2), Hq2.
    eexists. split; [reflexivity|]. split; [|split].
    + intros Hoff. subst w'. unfold bound_client. simpl. now rewrite Hoff.
    + intros Hon. subst w'. unfold bound_client in *. simpl.
      destruct (txStore w); [contradiction|exact Hb..].
    + simpl. apply elem_of_union_l. now apply elem_of_singleton.
Qed.

End Transactions.

(** ** Control pseudo-statements *)

Section Control.
Context {payload : Type} (drv : @driver payload).

(** C4. [exec] treats a statement as a control pseudo-statement exactly
    when its text, trimmed and then stripped of its trailing semicolons,
    equals [BEGIN], [BEGIN TRANSACTION], [COMMIT] or [ROLLBACK] up to
    letter case, and hands every other statement, as it is, to ordinary
    execution. In particular a keyword in any letter case, between
    leading white space and semicolons followed by white space, is
    recognised. *)
Theorem exec_recognises_control_statements :
  (forall sql,
     exec drv sql =
     match control_spec sql with
     | Some Begin => exec_begin drv
     | Some k => exec_end drv (command k)
     | None => bind (query drv sql None) (fun _ => ret tt)
     end) /\
  (forall KW k kw lead n trail,
     In (KW, k) keywords -> eq_ci kw KW = true ->
     forallb is_space lead = true -> forallb is_space trail = true ->
     control_spec (lead ++ kw ++ repeat SEMI n ++ trail) = Some k).
Proof.
  split.
  - intros sql. rewrite <- control_of_spec. apply exec_dispatch.
  - intros KW k kw lead n trail Hin Hci Hl Ht.
    rewrite <- control_of_spec. now apply (control_of_padded_keyword KW).
Qed.
End Control.

(** White space between the keyword and the semicolon is not removed:
    such a statement is an ordinary statement for [exec]. Here it goes to
    the bound client, which stays bound and leased. *)
Lemma keyword_space_semicolon_not_recognised :
  ~ (forall KW k tail,
       In (KW, k) keywords ->
       forallb (fun c => is_space c || ch_is SEMI c) tail = true ->
       control_of (KW ++ tail) = Some k) /\
  exec failing_driver $"ROLLBACK ;" open_world =
  (Thrown (Error $"connection lost"),
   {| txStore := StoreObject 1; leased := {[1]};
      journal := [Query (TheClient 1) $"ROLLBACK ;" None] |}).
Proof.
  split; [|reflexivity].
  intros H. specialize (H $"ROLLBACK" Rollback $" ;").
  assert (Hin : In ($"ROLLBACK", Rollback) keywords) by (simpl; tauto).
  specialize (H Hin eq_refl). discriminate H.
Qed.

(** ** Generated identifiers *)

Section Run.
Context {payload number : Type} (Number : payload -> number).
Context (drv : @driver payload).

Lemma run_unfold sql params w :
  run Number drv sql params w =
  let text := replaceQMarksWithPgParams sql in
  let returning := isInsertNeedingReturningId text in
  let sent := if returning then text ++ $" RETURNING id" else text in
  let values := Some (default [] params) in
  match query_reply drv (journal w) (runner_of w) sent values with
  | inl e => (Thrown e, logged (Query (runner_of w) sent values) w)
  | inr r =>
      (Returned
         {| changes := default 0%N (rowCount r);
            lastID := if returning then
                        match first_row_id r with
                        | Vother id => Some (Number id)
                        | _ => None
                        end
                      else None |},
       logged (Query (runner_of w) sent values) w)
  end.
Proof.
  unfold run, query, getStore_client, runner_query, runner_of, ret, bind.
  cbv zeta. now destruct (query_reply drv _ _ _ _).
Qed.

(** [run] appends [ RETURNING id] to the translated statement
    exactly when its trimmed text starts with [insert], in any letter
    case, followed by a white-space character, and nowhere has
    [returning], in any letter case, followed by a white-space
    character. When the clause was appended and the first row of the
    result has an [id] that is neither null nor undefined, [lastID] is
    that [id] as a number; otherwise the record has no [lastID]. *)
Theorem run_appends_returning_id :
  (forall text,
     isInsertNeedingReturningId text = true <->
     word_then_space_at_start $"insert" (trim text) /\
     ~ word_then_space_somewhere $"returning" (trim text)) /\
  (forall sql params w,
     let text := replaceQMarksWithPgParams sql in
     let values := Some (default [] params) in
     isInsertNeedingReturningId text = true ->
     run Number drv sql params w =
     match query_reply drv (journal w) (runner_of w)
             (text ++ $" RETURNING id") values with
     | inl e =>
         (Thrown e,
          logged (Query (runner_of w) (text ++ $" RETURNING id") values) w)
     | inr r =>
         (Returned
            {| changes := default 0%N (rowCount r);
               lastID := match first_row_id r with
                         | Vother id => Some (Number id)
                         | _ => None
                         end |},
          logged (Query (runner_of w) (text ++ $" RETURNING id") values) w)
     end) /\
  (forall sql params w,
     let text := replaceQMarksWithPgParams sql in
     let values := Some (default [] params) in
     isInsertNeedingReturningId text = false ->
     run Number drv sql params w =
     match query_reply drv (journal w) (runner_of w) text values with
     | inl e => (Thrown e, logged (Query (runner_of w) text values) w)
     | inr r =>
         (Returned {| changes := default 0%N (rowCount r); lastID := None |},
          logged (Query (runner_of w) text values) w)
     end).
Proof.
  split; [exact isInsertNeedingReturningId_spec|].
  split; intros sql params w text values H; rewrite run_unfold; cbv zeta;
    fold text; rewrite H; reflexivity.
Qed.
End Run.

(** C3. An INSERT statement that ends in [RETURNING*] has a RETURNING
    clause already; the test of the code, which asks for white space
    after the word, does not see it, and [run] sends the statement with
    a second clause, [... RETURNING* RETURNING id]. *)
Lemma returning_star_is_rewritten_twice :
  let sql := $"INSERT INTO t(a) VALUES (?) RETURNING*" in
  ~ (forall text, isInsertNeedingReturningId text = needs_returning_spec text) /\
  has_token $"returning" true (replaceQMarksWithPgParams sql) = true /\
  journal (snd (run (fun _ : unit => 0%N) recovering_driver sql None idle_world))
  = [Query ThePool $"INSERT INTO t(a) VALUES ($1) RETURNING* RETURNING id" (Some [])].
Proof.
  split; [|split; reflexivity].
  intros H. specialize (H $"INSERT INTO t(a) VALUES ($1) RETURNING*").
  discriminate H.
Qed.

(** ** Instances *)

Lemma commit_rollback_release_leaves_chain_bound_witness :
  (control_of $"commit;" = Some Commit /\ Commit <> Begin /\
   txStore open_world = StoreObject 1 /\ 1 ∈ leased open_world) /\
  let '(r, w') := exec failing_driver $"commit;" open_world in
  (1 ∉ leased w') /\
  leased w' = leased open_world ∖ {[1]} /\
  In (Release 1) (journal w') /\
  r = Thrown (Error $"connection lost") /\
  bound_client w' = Some 1.
Proof.
  assert (H1 : 1 ∈ leased open_world) by (now apply elem_of_singleton).
  assert (H2 : Commit <> Begin) by discriminate.
  split; [split; [reflexivity|split; [exact H2|split; [reflexivity|exact H1]]]|].
  exact (commit_rollback_release_leaves_chain_bound failing_driver $"commit;"
           Commit open_world 1 eq_refl H2 eq_refl H1).
Defined.

Lemma redundant_commit_rollback_throws_witness :
  (control_of $"COMMIT" = Some Commit /\ Commit <> Begin /\
   txStore open_world = StoreObject 1 /\ 1 ∈ leased open_world) /\
  let w1 := snd (exec answering_driver $"COMMIT" open_world) in
  (1 ∉ leased w1) /\
  leased w1 = leased open_world ∖ {[1]} /\
  exec answering_driver $"COMMIT" w1 =
    (Thrown double_release,
     {| txStore := StoreObject 1; leased := leased open_world ∖ {[1]};
        journal := journal open_world ++
          [Query (TheClient 1) $"COMMIT" None; Release 1;
           Query (TheClient 1) $"COMMIT" None; Release 1] |}) /\
  exec answering_driver $"COMMIT" w1 <> (Returned tt, w1).
Proof.
  assert (H1 : 1 ∈ leased open_world) by (now apply elem_of_singleton).
  assert (H2 : Commit <> Begin) by discriminate.
  split; [split; [reflexivity|split; [exact H2|split; [reflexivity|exact H1]]]|].
  exact (redundant_commit_rollback_throws answering_driver $"COMMIT" Commit
           $"COMMIT" Commit open_world 1 eq_refl H2 eq_refl H2 eq_refl H1).
Defined.

Lemma begin_while_open_is_rejected_witness :
  (control_of $"  BEGIN  " = Some Begin /\ txStore open_world = StoreObject 1) /\
  exec failing_driver $"  BEGIN  " open_world
  = (Thrown (Error $"Transaction already started"), open_world).
Proof.
  split; [split; reflexivity|].
  exact (begin_while_open_is_rejected failing_driver $"  BEGIN  " open_world 1
           eq_refl eq_refl).
Defined.

Lemma commit_rollback_idle_is_noop_witness :
  (control_of $"ROLLBACK" = Some Rollback /\ Rollback <> Begin /\
   bound_client idle_world = None) /\
  exec failing_driver $"ROLLBACK" idle_world = (Returned tt, idle_world).
Proof.
  assert (H2 : Rollback <> Begin) by discriminate.
  split; [split; [reflexivity|split; [exact H2|reflexivity]]|].
  exact (commit_rollback_idle_is_noop failing_driver $"ROLLBACK" Rollback
           idle_world eq_refl H2 eq_refl).
Defined.

Lemma failed_begin_releases_the_lease_witness :
  (control_of $"begin transaction;" = Some Begin /\
   bound_client first_world = None /\
   connect_reply recovering_driver (journal first_world) = inr 7 /\
   (7 ∉ leased first_world) /\
   query_reply recovering_driver (journal first_world ++ [Connect])
     (TheClient 7) $"BEGIN" None = inl (Error $"connection lost")) /\
  let w' := {| txStore := StoreOff; leased := ∅;
               journal := [Connect; Query (TheClient 7) $"BEGIN" None; Release 7] |} in
  exec recovering_driver $"begin transaction;" first_world
    = (Thrown (Error $"connection lost"), w') /\
  bound_client w' = None /\
  exists w'', exec recovering_driver $"BEGIN" w' = (Returned tt, w'') /\
              bound_client w'' = Some 7 /\ 7 ∈ leased w''.
Proof.
  assert (Hfresh : 7 ∉ leased first_world) by apply not_elem_of_empty.
  destruct (failed_begin_releases_the_lease recovering_driver
              $"begin transaction;" first_world 7 (Error $"connection lost")
              eq_refl eq_refl eq_refl Hfresh eq_refl) as (H1 & H2 & H3).
  split; [split; [reflexivity|split; [reflexivity|split; [reflexivity|
          split; [exact Hfresh|reflexivity]]]]|].
  split; [exact H1|]. split; [exact H2|].
  destruct (H3 $"BEGIN" 7 {| rowCount := Some 0%N; rows := Some [] |}
               eq_refl eq_refl eq_refl) as (w'' & E & Hb & _ & Hl).
  exists w''. split; [exact E|]. split; [exact (Hb eq_refl)|exact Hl].
Defined.

Lemma backend_selection_priority_witness :
  resolveDialect env_override = postgres /\
  resolveDialect env_url = postgres /\
  resolveDialect ∅ = sqlite.
Proof.
  split; [|split].
  - apply (proj1 (backend_selection_priority env_override)).
    vm_compute. tauto.
  - apply (proj1 (proj2 (proj2 (backend_selection_priority env_url)))).
    + vm_compute. intros [H|[H|[H|[]]]]; discriminate H.
    + vm_compute. intros [H|[H|[]]]; discriminate H.
    + left. eexists. split; [reflexivity|discriminate].
  - apply (proj2 (proj2 (proj2 (backend_selection_priority ∅)))).
    + vm_compute. intros [H|[H|[H|[]]]]; discriminate H.
    + vm_compute. intros [H|[H|[]]]; discriminate H.
    + intros [(v & H & _)|(v & H & _)]; discriminate H.
Defined.


Lemma exec_recognises_control_statements_witness :
  control_spec ($"  " ++ $"Commit" ++ repeat SEMI 2 ++ $" ") = Some Commit.
Proof.
  apply (proj2 (exec_recognises_control_statements failing_driver) $"COMMIT");
    [simpl; tauto|reflexivity..].
Defined.

Lemma run_appends_returning_id_witness :
  run (fun n : nat => n) inserting_driver
      $"INSERT INTO consultants (name) VALUES (?)" None fresh_world
  = (Returned {| changes := 1%N; lastID := Some 42 |},
     {| txStore := StoreUndefined; leased := ∅;
        journal :=
          [Query ThePool
             $"INSERT INTO consultants (name) VALUES ($1) RETURNING id"
             (Some [])] |}).
Proof.
  exact (proj1 (proj2 (run_appends_returning_id (fun n : nat => n) inserting_driver))
           $"INSERT INTO consultants (name) VALUES (?)" None fresh_world eq_refl).
Defined.

(** * Further properties *)

(** ** Statements without markers *)

Lemma step_without_marker m k ch nx e m' k' adv :
  step m k ch nx = (e, m', k', adv) -> ch_is QMARK ch = false ->
  k' = k /\
  ((adv = By1 /\ e = [ch]) \/ (adv = By2 /\ nx = Some (nth 1 e ch) /\ e = [ch; nth 1 e ch])).
Proof.
  intros H Hq. destruct m; unfold step in H; rewrite ?Hq in H;
    repeat case_match; simplify_eq; tests_true; subst;
    (split; [reflexivity|]); try (left; split; reflexivity);
    right; (split; [reflexivity|]); simpl;
    repeat match goal with
           | H : next_is _ ?n = true |- _ =>
               destruct n; [apply Ascii.eqb_eq in H; subst|discriminate H]
           end; split; reflexivity.
Qed.

Lemma scan_from_without_marker (s : jsstring) :
  forall m k, no_marker s = true -> scan_from m k s = s.
Proof.
  unfold no_marker.
  induction s as [|a|a b l IHl IHbl] using list_pair_ind; intros m k H.
  - reflexivity.
  - simpl in H. rewrite andb_true_r in H. apply negb_true_iff in H.
    rewrite scan_from_cons.
    destruct (step m k a (head [])) as [[[e m'] k'] adv] eqn:E.
    destruct (step_without_marker _ _ _ _ _ _ _ _ E H) as [_ [[-> ->]|[_ [Hn _]]]];
      [reflexivity|discriminate Hn].
  - assert (Ha : ch_is QMARK a = false).
    { simpl in H. apply andb_true_iff in H as [H _]. now apply negb_true_iff. }
    assert (Hbl : forallb (fun c => negb (ch_is QMARK c)) (b :: l) = true).
    { simpl in H. now apply andb_true_iff in H as [_ H]. }
    assert (Hl : forallb (fun c => negb (ch_is QMARK c)) l = true).
    { simpl in Hbl. now apply andb_true_iff in Hbl as [_ Hbl]. }
    rewrite scan_from_cons.
    destruct (step m k a (head (b :: l))) as [[[e m'] k'] adv] eqn:E.
    destruct (step_without_marker _ _ _ _ _ _ _ _ E Ha)
      as [_ [[-> ->]|[-> [Hn ->]]]].
    + cbn [app]. now rewrite IHbl.
    + simpl in Hn. injection Hn as Hn. rewrite <- Hn. cbn [app]. now rewrite IHl.
Qed.

(** X1. A statement without any marker is sent as it is. *)
Theorem translator_keeps_statement_without_marker (sql : jsstring) :
  no_marker sql = true -> replaceQMarksWithPgParams sql = sql.
Proof.
  intros H. rewrite translate_scan_from. now apply scan_from_without_marker.
Qed.

(** ** No marker is left in executable SQL *)

Lemma substitute_fixed_point l : forall k,
  substitute k l = map fst l ->
  forallb (fun x => negb (snd x && ch_is QMARK (fst x))) l = true.
Proof.
  induction l as [|[c b] l IH]; intros k H; [reflexivity|].
  simpl in *. destruct (b && ch_is QMARK c) eqn:E.
  - injection H as Hc _. apply andb_true_iff in E as [_ E].
    apply ch_is_true in E. subst c. discriminate Hc.
  - injection H as H. simpl. now apply (IH k).
Qed.

Lemma map_fst_combine_mask (s : jsstring) : map fst (combine s (code_mask s)) = s.
Proof.
  pose proof (code_mask_length s) as Hlen. revert Hlen.
  generalize (code_mask s). induction s as [|c s IH]; intros [|b M] Hlen;
    simpl in *; try discriminate; [reflexivity|].
  f_equal. apply IH. now injection Hlen.
Qed.

(** X2. After the translation no marker is left in executable SQL: every
    [?] of the result lies in a literal or in a comment. *)
Theorem translated_statement_has_no_executable_marker (sql : jsstring) :
  no_executable_marker (replaceQMarksWithPgParams sql) = true.
Proof.
  unfold no_executable_marker.
  set (t := replaceQMarksWithPgParams sql).
  apply (substitute_fixed_point _ 0). rewrite map_fst_combine_mask.
  unfold code_mask. rewrite <- scan_default_mask by lia.
  subst t. rewrite translate_scan_from. apply rescan.
Qed.

(** ** White space around a statement, semicolons after it *)

Lemma trimStart_all_space s : forallb is_space s = true -> trimStart s = [].
Proof.
  induction s as [|c r IH]; [reflexivity|]. simpl.
  intros H. apply andb_true_iff in H as [-> H]. now apply IH.
Qed.

Lemma trimStart_app_nonspace s t :
  forallb is_space s = false -> trimStart (s ++ t) = trimStart s ++ t.
Proof.
  induction s as [|c r IH]; [discriminate|]. simpl.
  destruct (is_space c); [exact IH|reflexivity].
Qed.

Lemma trim_padding lead s trail :
  forallb is_space lead = true -> forallb is_space trail = true ->
  trim (lead ++ s ++ trail) = trim s.
Proof.
  intros Hl Ht. unfold trim. rewrite trimStart_app_space by exact Hl.
  destruct (forallb is_space s) eqn:Hs.
  - rewrite (trimStart_all_space s Hs), trimStart_all_space;
      [reflexivity|]. now rewrite forallb_app, Hs, Ht.
  - rewrite trimStart_app_nonspace by exact Hs. unfold trimEnd.
    now apply drop_trailing_app.
Qed.

Lemma control_of_padding lead sql trail :
  forallb is_space lead = true -> forallb is_space trail = true ->
  control_of (lead ++ sql ++ trail) = control_of sql.
Proof.
  intros Hl Ht. unfold control_of. now rewrite trim_padding.
Qed.

(** X3. White space before and after a statement does not change whether
    [exec] takes it for a control pseudo-statement, nor for which: a
    control pseudo-statement does the same with and without it. *)
Theorem exec_ignores_padding {payload : Type} (drv : @driver payload) lead sql trail :
  forallb is_space lead = true -> forallb is_space trail = true ->
  control_of (lead ++ sql ++ trail) = control_of sql /\
  (control_of sql <> None -> exec drv (lead ++ sql ++ trail) = exec drv sql).
Proof.
  intros Hl Ht. pose proof (control_of_padding lead sql trail Hl Ht) as H.
  split; [exact H|]. intros Hk. rewrite !exec_dispatch, H.
  now destruct (control_of sql).
Qed.

(** X5. White space before and after a statement does not change whether it
    is given a [RETURNING id] clause. *)
Theorem isInsertNeedingReturningId_ignores_padding lead sql trail :
  forallb is_space lead = true -> forallb is_space trail = true ->
  isInsertNeedingReturningId (lead ++ sql ++ trail) = isInsertNeedingReturningId sql.
Proof.
  intros Hl Ht. unfold isInsertNeedingReturningId. now rewrite trim_padding.
Qed.

(** X7. White space around the value of the dialect override does not change
    the backend chosen. *)
Theorem resolveDialect_ignores_padding (env : environment) lead v trail :
  forallb is_space lead = true -> forallb is_space trail = true ->
  resolveDialect (<["DB_DIALECT"%string := lead ++ v ++ trail]> env)
  = resolveDialect (<["DB_DIALECT"%string := v]> env).
Proof.
  intros Hl Ht. unfold resolveDialect.
  rewrite !lookup_insert_eq.
  rewrite !lookup_insert_ne by discriminate.
  change (or_empty (Some (lead ++ v ++ trail))) with (lead ++ v ++ trail).
  change (or_empty (Some v)) with v.
  now rewrite trim_padding.
Qed.

Lemma drop_trailing_fixed_tail P c r :
  drop_trailing P (c :: r) = c :: r -> drop_trailing P r = r.
Proof.
  cbn [drop_trailing]. destruct (forallb P (c :: r)); [discriminate|].
  now intros [= H].
Qed.

Lemma trimStart_fixed s : trimEnd s = s -> trimEnd (trimStart s) = trimStart s.
Proof.
  unfold trimEnd. induction s as [|c r IH]; [reflexivity|].
  intros H. simpl. destruct (is_space c); [|exact H].
  apply IH. now apply drop_trailing_fixed_tail in H.
Qed.

Lemma trim_semicolons s n :
  trimEnd s = s -> trim (s ++ repeat SEMI n) = trim s ++ repeat SEMI n.
Proof.
  intros H. unfold trim. rewrite (trimStart_fixed s H).
  destruct (forallb is_space s) eqn:Hs.
  - assert (s = []) as ->.
    { unfold trimEnd in H. rewrite drop_trailing_all in H by exact Hs. congruence. }
    simpl. destruct n as [|n]; [reflexivity|].
    cbn [repeat trimStart]. change (is_space SEMI) with false. cbv iota.
    unfold trimEnd. rewrite repeat_cons. now apply drop_trailing_last.
  - rewrite trimStart_app_nonspace by exact Hs.
    destruct n as [|n].
    + simpl. rewrite app_nil_r. now apply trimStart_fixed.
    + cbn [repeat]. rewrite repeat_cons, app_assoc. unfold trimEnd.
      now apply drop_trailing_last.
Qed.

(** X4. Semicolons put directly after a statement that does not end in white
    space do not change whether [exec] takes it for a control
    pseudo-statement, nor for which. *)
Theorem exec_ignores_semicolons {payload : Type} (drv : @driver payload) sql n :
  trimEnd sql = sql ->
  control_of (sql ++ repeat SEMI n) = control_of sql /\
  (control_of sql <> None -> exec drv (sql ++ repeat SEMI n) = exec drv sql).
Proof.
  intros H.
  assert (E : control_of (sql ++ repeat SEMI n) = control_of sql).
  { rewrite !control_of_spec. unfold control_spec.
    rewrite (trim_semicolons sql n H). unfold strip_trailing_semicolons.
    rewrite drop_trailing_app; [reflexivity|].
    apply forallb_forall. intros x Hx. apply repeat_spec in Hx. now subst. }
  split; [exact E|]. intros Hk. rewrite !exec_dispatch, E.
  now destruct (control_of sql).
Qed.

(** ** Statements and the transaction state *)

Section FacadeProperties.
Context {payload number : Type} (Number : payload -> number).
Context (drv : @driver payload) (end_reply : list (@call payload) -> option error).

Implicit Types (w : @world payload) (c : client) (o : @operation payload).

Lemma query_unfold text values w :
  query drv text values w =
  (match query_reply drv (journal w) (runner_of w) text values with
   | inl e => Thrown e
   | inr r => Returned r
   end, logged (Query (runner_of w) text values) w).
Proof.
  unfold query, getStore_client, runner_query, runner_of, bind.
  now destruct (query_reply drv _ _ _ _).
Qed.

Lemma perform_ordinary o w :
  ordinary o ->
  exists text values, perform Number drv o w = logged (Query (runner_of w) text values) w.
Proof.
  intros Ho. destruct o as [sql|sql params|sql params|sql params]; simpl in *.
  - rewrite exec_dispatch, Ho. unfold bind. rewrite query_unfold.
    exists sql, None. now destruct (query_reply drv _ _ _ _).
  - rewrite run_unfold. cbv zeta. eexists _, _.
    destruct (query_reply drv _ _ _ _); reflexivity.
  - unfold get, bind. rewrite query_unfold. eexists _, _.
    destruct (query_reply drv _ _ _ _); reflexivity.
  - unfold all, bind. rewrite query_unfold. eexists _, _.
    destruct (query_reply drv _ _ _ _); reflexivity.
Qed.

(** X9. [run], [get], [all] and [exec] on a statement that is no control
    pseudo-statement send one statement, to the bound client when there
    is one and to the pool otherwise, and leave the binding and the
    leased clients as they are, whether the driver answers or throws. *)
Theorem statements_keep_transaction_state o w :
  ordinary o ->
  txStore (perform Number drv o w) = txStore w /\
  leased (perform Number drv o w) = leased w /\
  exists text values,
    journal (perform Number drv o w) = journal w ++ [Query (runner_of w) text values].
Proof.
  intros Ho. destruct (perform_ordinary o w Ho) as (text & values & ->).
  split; [reflexivity|]. split; [reflexivity|]. now exists text, values.
Qed.

(** X10. [get] returns the first of the rows that [all] returns for the same
    statement in the same state, or nothing when there is none, and
    throws what [all] throws. *)
Theorem get_is_first_of_all sql params w :
  get drv sql params w =
  match all drv sql params w with
  | (Returned rs, w') => (Returned (head rs), w')
  | (Thrown e, w') => (Thrown e, w')
  end.
Proof.
  unfold get, all, bind. rewrite query_unfold.
  destruct (query_reply drv _ _ _ _) as [e|r]; [reflexivity|].
  unfold ret, first_row. now destruct (rows r) as [[|first rest]|].
Qed.

(** ** The store of the call chain *)

Lemma bound_store w c : bound_client w = Some c -> txStore w = StoreObject c.
Proof. unfold bound_client. destruct (txStore w); congruence. Qed.


End FacadeProperties.

(** ** Closing the facade, and a whole transaction *)

Section Scripts.
Context {payload number : Type} (Number : payload -> number).
Context (drv : @driver payload) (end_reply : list (@call payload) -> option error).

Implicit Types (w : @world payload) (c : client) (o : @operation payload).

(** The state [close] leaves. *)
Lemma close_unfold w :
  close drv end_reply w =
  let w' :=
    match bound_client w with
    | Some c =>
        {| txStore := txStore w; leased := leased w ∖ {[c]};
           journal := journal w ++ [Query (TheClient c) $"ROLLBACK" None; Release c] |}
    | None => w
    end in
  (match end_reply (journal w') with
   | Some e => Thrown e
   | None => Returned tt
   end, w').
Proof.
  unfold close, bind, getStore_client, try_catch, runner_query, client_release,
    enterWith, pool_end, ret, logged.
  destruct (bound_client w) as [c|] eqn:Hb; simpl.
  - apply bound_store in Hb.
    destruct (query_reply drv _ _ _ _); simpl;
      destruct (decide (c ∈ leased w)) as [Hc|Hc]; simpl;
      rewrite ?Hb; simpl;
      rewrite <- ?app_assoc; simpl;
      try (assert (leased w ∖ {[c]} = leased w) as ->
             by (apply set_eq; intros x;
                 rewrite elem_of_difference, elem_of_singleton;
                 split; [tauto|]; intros Hx; split; [exact Hx|];
                 intros ->; contradiction));
      now destruct (end_reply _).
  - now destruct (end_reply _).
Qed.

(** X15. [close] throws nothing but what [pool.end] throws: an error of the
    rollback or of the release is swallowed. The client in the store of
    the call chain gets [ROLLBACK] and is no longer leased afterwards;
    the call chain still reads it in its store, [enterWith(null)] being
    called after the [await]; with no client in the store [close] only
    ends the pool. *)
Theorem close_releases_and_ends w :
  let '(r, w') := close drv end_reply w in
  r = match end_reply (journal w') with
      | Some e => Thrown e
      | None => Returned tt
      end /\
  txStore w' = txStore w /\
  (forall c, bound_client w = Some c ->
             (c ∉ leased w') /\
             leased w' = leased w ∖ {[c]} /\
             journal w' = journal w ++
               [Query (TheClient c) $"ROLLBACK" None; Release c]) /\
  (bound_client w = None -> w' = w).
Proof.
  rewrite close_unfold. cbv zeta.
  destruct (bound_client w) as [c|] eqn:Hb.
  - split; [reflexivity|]. split; [reflexivity|]. split.
    + intros c' [= <-]. split; [|split; reflexivity]. simpl.
      apply not_elem_of_difference. right. now apply elem_of_singleton.
    + discriminate.
  - split; [reflexivity|]. split; [reflexivity|]. split.
    + discriminate.
    + reflexivity.
Qed.


(** X12. When the pool has no client to give, [BEGIN] throws the pool's
    error: no command is issued, nothing is leased and the call chain
    stays unbound. *)
Theorem begin_without_connection sql w e :
  control_of sql = Some Begin -> bound_client w = None ->
  connect_reply drv (journal w) = inl e ->
  exec drv sql w =
  (Thrown e,
   {| txStore := txStore w; leased := leased w; journal := journal w ++ [Connect] |}).
Proof.
  intros Hk Hb Hc. rewrite exec_dispatch, Hk.
  unfold exec_begin, bind, getStore_client, pool_connect, logged.
  now rewrite Hb, Hc.
Qed.

Lemma perform_all_ordinary (os : list operation) : forall w,
  Forall ordinary os ->
  exists middle,
    perform_all Number drv os w =
    {| txStore := txStore w; leased := leased w; journal := journal w ++ middle |} /\
    length middle = length os /\
    Forall (fun x => exists text values, x = Query (runner_of w) text values) middle.
Proof.
  induction os as [|o os IH]; intros w Hos.
  - exists []. simpl. rewrite app_nil_r. now destruct w.
  - inversion Hos as [|? ? Ho Hos']; subst. simpl.
    destruct (perform_ordinary Number drv o w Ho) as (text & values & E).
    rewrite E. destruct (IH (logged (Query (runner_of w) text values) w) Hos')
      as (middle & -> & Hlen & Hall).
    exists (Query (runner_of w) text values :: middle). simpl.
    rewrite <- app_assoc. split; [reflexivity|]. split; [now rewrite Hlen|].
    constructor; [now exists text, values|exact Hall].
Qed.

(** X13. The first transaction of a process, the storage not entered
    before: after a [BEGIN] that the pool and the client answer, every
    statement of [run], [get], [all] and [exec] goes to the client that
    [BEGIN] leased, one call each, until [COMMIT] or [ROLLBACK] sends
    its command to that client and gives it back; the pool then counts
    as leased what it counted before, and the call chain still reads
    the client in its store. *)
Theorem first_transaction_round_trip begin (os : list operation) finish k w c res :
  control_of begin = Some Begin -> txStore w = StoreOff ->
  connect_reply drv (journal w) = inr c -> c ∉ leased w ->
  query_reply drv (journal w ++ [Connect]) (TheClient c) $"BEGIN" None = inr res ->
  Forall ordinary os ->
  control_of finish = Some k -> k <> Begin ->
  let w1 := snd (exec drv begin w) in
  let w2 := perform_all Number drv os w1 in
  let w3 := snd (exec drv finish w2) in
  bound_client w2 = Some c /\
  (exists middle,
     length middle = length os /\ Forall (on_client c) middle /\
     journal w3 = journal w ++ [Connect; Query (TheClient c) $"BEGIN" None]
                  ++ middle ++ [Query (TheClient c) (command k) None; Release c]) /\
  leased w3 = leased w /\
  bound_client w3 = Some c.
Proof.
  intros Hb Hoff Hc Hfresh Hq Hos Hk Hne w1 w2 w3.
  assert (Hidle : bound_client w = None)
    by (unfold bound_client; now rewrite Hoff).
  assert (E1 : w1 = {| txStore := StoreObject c; leased := {[c]} ∪ leased w;
                       journal := journal w ++ [Connect; Query (TheClient c) $"BEGIN" None] |}).
  { subst w1.
    now rewrite exec_dispatch, Hb, (exec_begin_idle drv w c Hidle Hc), Hq, Hoff. }
  destruct (perform_all_ordinary os w1 Hos) as (middle & E2 & Hlen & Hall).
  fold w2 in E2. rewrite E1 in E2 at 1 2 3. simpl in E2.
  assert (Hr : runner_of w1 = TheClient c) by (now rewrite E1).
  assert (E3 : w3 = {| txStore := StoreObject c; leased := ({[c]} ∪ leased w) ∖ {[c]};
                       journal := journal w2 ++
                         [Query (TheClient c) (command k) None; Release c] |}).
  { subst w3. rewrite exec_dispatch, Hk.
    assert (Hs : txStore w2 = StoreObject c) by (now rewrite E2).
    assert (Hl : c ∈ leased w2).
    { rewrite E2. simpl. apply elem_of_union_l. now apply elem_of_singleton. }
    destruct k; [congruence| |];
      rewrite (exec_end_bound drv _ w2 c Hs Hl); simpl; now rewrite E2. }
  split; [now rewrite E2|]. split; [|split].
  - exists middle. split; [exact Hlen|]. split.
    + rewrite Hr in Hall. exact Hall.
    + rewrite E3, E2. simpl. now rewrite <- !app_assoc.
  - rewrite E3. simpl. now apply lease_returned.
  - now rewrite E3.
Qed.

(** X16. A transaction begun in a call chain once the storage has been
    entered: [BEGIN] leases a client and returns, but the call chain
    never reads it in its store. The statements that follow go to the
    pool, [COMMIT] or [ROLLBACK] is a no-op, and [close] sends nothing
    to the client: it stays leased. *)
Theorem begin_in_entered_chain_leaks_its_client
    begin (os : list operation) finish k w c res :
  control_of begin = Some Begin ->
  txStore w <> StoreOff -> bound_client w = None ->
  connect_reply drv (journal w) = inr c ->
  query_reply drv (journal w ++ [Connect]) (TheClient c) $"BEGIN" None = inr res ->
  Forall ordinary os ->
  control_of finish = Some k -> k <> Begin ->
  let w1 := snd (exec drv begin w) in
  let w2 := perform_all Number drv os w1 in
  fst (exec drv begin w) = Returned tt /\
  (exists middle,
     length middle = length os /\ Forall on_pool middle /\
     journal w2 = journal w ++ [Connect; Query (TheClient c) $"BEGIN" None]
                  ++ middle) /\
  exec drv finish w2 = (Returned tt, w2) /\
  snd (close drv end_reply w2) = w2 /\
  bound_client w2 = None /\
  c ∈ leased w2.
Proof.
  intros Hb Hon Hidle Hc Hq Hos Hk Hne w1 w2.
  assert (E0 : exec drv begin w =
               (Returned tt,
                {| txStore := txStore w; leased := {[c]} ∪ leased w;
                   journal := journal w ++ [Connect; Query (TheClient c) $"BEGIN" None] |})).
  { rewrite exec_dispatch, Hb, (exec_begin_idle drv w c Hidle Hc), Hq.
    destruct (txStore w); [contradiction|reflexivity..]. }
  assert (E1 : w1 = {| txStore := txStore w; leased := {[c]} ∪ leased w;
                       journal := journal w ++ [Connect; Query (TheClient c) $"BEGIN" None] |})
    by (subst w1; now rewrite E0).
  destruct (perform_all_ordinary os w1 Hos) as (middle & E2 & Hlen & Hall).
  fold w2 in E2. rewrite E1 in E2 at 1 2 3. simpl in E2.
  assert (Hr : runner_of w1 = ThePool).
  { rewrite E1. unfold runner_of, bound_client in *. simpl. now rewrite Hidle. }
  assert (Hidle2 : bound_client w2 = None).
  { rewrite E2. unfold bound_client in *. exact Hidle. }
  split; [now rewrite E0|]. split; [|split; [|split; [|split]]].
  - exists middle. split; [exact Hlen|]. split.
    + rewrite Hr in Hall. exact Hall.
    + rewrite E2. simpl. now rewrite <- !app_assoc.
  - rewrite exec_dispatch, Hk.
    destruct k; [congruence| |]; now apply exec_end_idle.
  - rewrite close_unfold. cbv zeta. now rewrite Hidle2.
  - exact Hidle2.
  - rewrite E2. simpl. apply elem_of_union_l. now apply elem_of_singleton.
Qed.
End Scripts.


(** ** The rewritten statement is not rewritten again *)

Lemma trim_keeps_returning_id text :
  exists before,
    trim (text ++ $" RETURNING id") = before ++ $"RETURNING id".
Proof.
  unfold trim.
  assert (H : exists before,
             trimStart (text ++ $" RETURNING id") = before ++ $"RETURNING id").
  { destruct (forallb is_space text) eqn:Hs.
    - exists []. rewrite trimStart_app_space by exact Hs. reflexivity.
    - exists (trimStart text ++ [" "]).
      rewrite trimStart_app_nonspace by exact Hs. now rewrite <- app_assoc. }
  destruct H as (before & ->). exists before. unfold trimEnd.
  change ($"RETURNING id") with ($"RETURNING i" ++ ["d"]).
  rewrite app_assoc. now apply drop_trailing_last.
Qed.

(** X6. A statement that ends in the clause [run] appends is never given the
    clause again. *)
Theorem appended_clause_is_not_appended_again (text : jsstring) :
  isInsertNeedingReturningId (text ++ $" RETURNING id") = false.
Proof.
  destruct (trim_keeps_returning_id text) as (before & E).
  assert (H : test_returning (trim (text ++ $" RETURNING id")) = true).
  { apply test_returning_spec. rewrite E. exists before, $"RETURNING id".
    split; [reflexivity|]. exists $"RETURNING", " ", $"id". now repeat split. }
  unfold isInsertNeedingReturningId. rewrite H.
  now destruct (test_insert _).
Qed.

(** ** The file of the embedded backend *)

(** X8. A directory or a file name set to the empty text counts as not set;
    with neither set the file is [data.sqlite] in [/data] when that
    directory exists and beside the module otherwise; a directory that
    is set decides whatever the file system holds. *)
Theorem getSqliteFile_defaults existsSync_data dirname path_join (env : environment) :
  getSqliteFile existsSync_data dirname path_join (<["DB_DIR"%string := []]> env)
  = getSqliteFile existsSync_data dirname path_join (delete "DB_DIR"%string env) /\
  getSqliteFile existsSync_data dirname path_join (<["DB_FILE"%string := []]> env)
  = getSqliteFile existsSync_data dirname path_join (delete "DB_FILE"%string env) /\
  getSqliteFile existsSync_data dirname path_join ∅
  = path_join (if existsSync_data then $"/data" else dirname) $"data.sqlite" /\
  (forall exists' dirname',
     present env "DB_DIR" ->
     getSqliteFile existsSync_data dirname path_join env
     = getSqliteFile exists' dirname' path_join env).
Proof.
  unfold getSqliteFile. repeat split.
  - rewrite lookup_insert_eq, lookup_delete_eq.
    rewrite lookup_insert_ne, lookup_delete_ne by discriminate. reflexivity.
  - rewrite lookup_insert_eq, lookup_delete_eq.
    rewrite lookup_insert_ne, lookup_delete_ne by discriminate. reflexivity.
  - intros exists' dirname' (v & Hv & Hne). rewrite Hv.
    destruct v; [congruence|reflexivity].
Qed.

(** ** Control pseudo-statements stay off the pool *)

Section OffThePool.
Context {payload : Type} (drv : @driver payload).

Implicit Types (w : @world payload) (c : client).



End OffThePool.

(** ** Instances of the further properties *)

Lemma translator_keeps_statement_without_marker_witness :
  no_marker $"SELECT 'a', b -- c" = true /\
  replaceQMarksWithPgParams $"SELECT 'a', b -- c" = $"SELECT 'a', b -- c".
Proof.
  split; [reflexivity|].
  exact (translator_keeps_statement_without_marker $"SELECT 'a', b -- c" eq_refl).
Defined.

Lemma exec_ignores_padding_witness :
  exec failing_driver ([" "; LF] ++ $"commit;" ++ [" "]) = exec failing_driver $"commit;".
Proof.
  apply (proj2 (exec_ignores_padding failing_driver [" "; LF] $"commit;" [" "]
                  eq_refl eq_refl)).
  discriminate.
Defined.

Lemma isInsertNeedingReturningId_ignores_padding_witness :
  isInsertNeedingReturningId ([LF; " "] ++ $"insert into t(a) values ($1)" ++ [LF])
  = isInsertNeedingReturningId $"insert into t(a) values ($1)".
Proof.
  exact (isInsertNeedingReturningId_ignores_padding
           [LF; " "] $"insert into t(a) values ($1)" [LF] eq_refl eq_refl).
Defined.

Lemma resolveDialect_ignores_padding_witness :
  resolveDialect (<["DB_DIALECT"%string := [" "] ++ $"SQLite" ++ [" "]]> env_url)
  = resolveDialect (<["DB_DIALECT"%string := $"SQLite"]> env_url).
Proof.
  exact (resolveDialect_ignores_padding env_url [" "] $"SQLite" [" "] eq_refl eq_refl).
Defined.

Lemma exec_ignores_semicolons_witness :
  trimEnd $" rollback" = $" rollback" /\
  exec failing_driver ($" rollback" ++ repeat SEMI 3) = exec failing_driver $" rollback".
Proof.
  split; [reflexivity|].
  apply (proj2 (exec_ignores_semicolons failing_driver $" rollback" 3 eq_refl)).
  discriminate.
Defined.

Lemma statements_keep_transaction_state_witness :
  ordinary (Exec (payload := unit) $"ROLLBACK ;") /\
  txStore (perform (fun _ : unit => 0%N) failing_driver (Exec $"ROLLBACK ;") open_world)
  = StoreObject 1 /\
  leased (perform (fun _ : unit => 0%N) failing_driver (Exec $"ROLLBACK ;") open_world)
  = {[1]}.
Proof.
  assert (Ho : ordinary (Exec (payload := unit) $"ROLLBACK ;")) by reflexivity.
  destruct (statements_keep_transaction_state (fun _ : unit => 0%N) failing_driver
              (Exec $"ROLLBACK ;") open_world Ho) as (H1 & H2 & _).
  split; [exact Ho|]. split; [exact H1|exact H2].
Defined.


Lemma begin_without_connection_witness :
  exec exhausted_driver $"BEGIN;" idle_world
  = (Thrown (Error $"timeout exceeded when trying to connect"),
     {| txStore := StoreUndefined; leased := ∅; journal := [Connect] |}).
Proof.
  exact (begin_without_connection exhausted_driver $"BEGIN;" idle_world _
           eq_refl eq_refl eq_refl).
Defined.

Lemma first_transaction_round_trip_witness :
  let w3 :=
    snd (exec inserting_driver $"COMMIT"
           (perform_all (fun n : nat => n) inserting_driver
              [Run $"INSERT INTO sales (product) VALUES (?)" None;
               Get $"SELECT * FROM sales WHERE id = ?" None]
              (snd (exec inserting_driver $"BEGIN" pristine_world)))) in
  leased w3 = ∅ /\ bound_client w3 = Some 7 /\
  journal w3 =
  [Connect; Query (TheClient 7) $"BEGIN" None;
   Query (TheClient 7) $"INSERT INTO sales (product) VALUES ($1) RETURNING id" (Some []);
   Query (TheClient 7) $"SELECT * FROM sales WHERE id = $1" (Some []);
   Query (TheClient 7) $"COMMIT" None; Release 7].
Proof.
  assert (Hfresh : 7 ∉ leased pristine_world) by apply not_elem_of_empty.
  assert (Hne : Commit <> Begin) by discriminate.
  assert (Hos : Forall (ordinary (payload := nat))
                  [Run $"INSERT INTO sales (product) VALUES (?)" None;
                   Get $"SELECT * FROM sales WHERE id = ?" None])
    by (repeat constructor).
  destruct (first_transaction_round_trip (fun n : nat => n) inserting_driver
              $"BEGIN" _ $"COMMIT" Commit pristine_world 7
              {| rowCount := Some 1%N; rows := Some [ {[ "id"%string := Vother 42 ]} ] |}
              eq_refl eq_refl eq_refl Hfresh eq_refl Hos eq_refl Hne)
    as (_ & _ & H3 & H4).
  split; [exact H3|]. split; [exact H4|reflexivity].
Defined.


Lemma begin_in_entered_chain_leaks_its_client_witness :
  let w2 :=
    perform_all (fun n : nat => n) inserting_driver
      [Run $"INSERT INTO sales (product) VALUES (?)" None]
      (snd (exec inserting_driver $"BEGIN" fresh_world)) in
  txStore fresh_world <> StoreOff /\
  exec inserting_driver $"ROLLBACK" w2 = (Returned tt, w2) /\
  snd (close inserting_driver quiet_end w2) = w2 /\
  bound_client w2 = None /\
  (7 ∈ leased w2) /\
  journal w2 =
  [Connect; Query (TheClient 7) $"BEGIN" None;
   Query ThePool $"INSERT INTO sales (product) VALUES ($1) RETURNING id" (Some [])].
Proof.
  assert (Hon : txStore fresh_world <> StoreOff) by discriminate.
  assert (Hne : Rollback <> Begin) by discriminate.
  assert (Hos : Forall (ordinary (payload := nat))
                  [Run $"INSERT INTO sales (product) VALUES (?)" None])
    by (repeat constructor).
  destruct (begin_in_entered_chain_leaks_its_client (fun n : nat => n)
              inserting_driver quiet_end
              $"BEGIN" _ $"ROLLBACK" Rollback fresh_world 7
              {| rowCount := Some 1%N; rows := Some [ {[ "id"%string := Vother 42 ]} ] |}
              eq_refl Hon eq_refl eq_refl eq_refl Hos eq_refl Hne)
    as (_ & _ & H3 & H4 & H5 & H6).
  split; [exact Hon|]. split; [exact H3|]. split; [exact H4|].
  split; [exact H5|]. split; [exact H6|reflexivity].
Defined.
